(** * llama_cpp_python.server.app: the access gate, the streaming publisher,
      request shaping, authentication and model resolution.

    A shallow embedding of [src/llama_cpp_python/server/app.py].  Python
    generators are written as explicit state machines whose program counter
    is the source line, blocking calls as partial step functions, exceptions
    as values of an error type, dictionaries as finite maps (or association
    lists where the iteration order is observable). *)

From stdpp Require Import gmap strings list fin_maps pretty.
From Stdlib Require Import ZArith Lia.

(* ===================================================================== *)
(** ** The access gate: [llama_outer_lock], [llama_inner_lock] and the
       generator [get_llama_proxy] (app.py, lines 66-91) *)
(* ===================================================================== *)

Module Gate.

(** What a caller does to the two locks, in the order it does it. *)
Inductive event : Type :=
  | AcquireOuter | AcquireInner | ReleaseOuter | ReleaseInner | YieldProxy.

Global Instance event_eq_dec : EqDecision event.
Proof. solve_decision. Defined.

(** [threading.Lock]: a flag, [true] when locked.  It has no owner. *)
Record Locks : Type := mkLocks {
  llama_outer_lock : bool;
  llama_inner_lock : bool
}.

Inductive exn : Type :=
  | Interrupted      (* raised out of a blocking [acquire()] *)
  | Thrown           (* an exception thrown into the generator at [yield] *)
  | GeneratorExit    (* [close()] on the suspended generator: cancellation *)
  | RuntimeError.    (* [release()] of a lock that is not locked *)

Global Instance exn_eq_dec : EqDecision exn.
Proof. solve_decision. Defined.

(** Program points of [get_llama_proxy], named by source line. *)
Inductive pc : Type :=
  | L79        (* llama_outer_lock.acquire() *)
  | L80        (* release_outer_lock = True *)
  | L82        (* llama_inner_lock.acquire() *)
  | L84        (* llama_outer_lock.release() *)
  | L85        (* release_outer_lock = False *)
  | L86        (* yield _llama_proxy *)
  | Yielded    (* suspended inside the yield; the caller owns the proxy *)
  | L88        (* finally: llama_inner_lock.release() *)
  | L90        (* finally: if release_outer_lock: llama_outer_lock.release() *)
  | Finished.  (* the generator has returned or raised *)

Global Instance pc_eq_dec : EqDecision pc.
Proof. solve_decision. Defined.

(** The generator frame: program point, the local [release_outer_lock], the
    exception travelling through the [finally] blocks (if any), and the log
    of what this caller did so far. *)
Record frame : Type := mkFrame {
  at_line : pc;
  release_outer_lock : bool;
  pending : option exn;
  trace : list event
}.

Definition fresh : frame :=
  {| at_line := L79; release_outer_lock := false; pending := None; trace := [] |}.

(** What drives one step: the interpreter runs the next statement, a blocking
    call is interrupted, or the owner of the suspended generator resumes it
    with [next] (scope left normally), [throw] (an exception left the scope)
    or [close] (cancellation). *)
Inductive input : Type := Run | Interrupt | Next | Throw | Close.

Definition goto (p : pc) (f : frame) : frame :=
  {| at_line := p; release_outer_lock := release_outer_lock f;
     pending := pending f; trace := trace f |}.

Definition log (e : event) (f : frame) : frame :=
  {| at_line := at_line f; release_outer_lock := release_outer_lock f;
     pending := pending f; trace := trace f ++ [e] |}.

Definition raise (e : exn) (f : frame) : frame :=
  {| at_line := at_line f; release_outer_lock := release_outer_lock f;
     pending := Some e; trace := trace f |}.

Definition set_flag (b : bool) (f : frame) : frame :=
  {| at_line := at_line f; release_outer_lock := b;
     pending := pending f; trace := trace f |}.

Definition set_outer (b : bool) (l : Locks) : Locks :=
  {| llama_outer_lock := b; llama_inner_lock := llama_inner_lock l |}.

Definition set_inner (b : bool) (l : Locks) : Locks :=
  {| llama_outer_lock := llama_outer_lock l; llama_inner_lock := b |}.

(** One step of [get_llama_proxy].  [None]: the step is not enabled (a
    blocking [acquire] on a locked lock, or an input that does not apply at
    this program point). *)
Definition gen_step (inp : input) (l : Locks) (f : frame) : option (Locks * frame) :=
  match at_line f, inp with
  | L79, Run =>
      if llama_outer_lock l then None
      else Some (set_outer true l, goto L80 (log AcquireOuter f))
  | L79, Interrupt =>                      (* outside every try block *)
      Some (l, goto Finished (raise Interrupted f))
  | L80, Run => Some (l, goto L82 (set_flag true f))
  | L82, Run =>
      if llama_inner_lock l then None
      else Some (set_inner true l, goto L84 (log AcquireInner f))
  | L82, Interrupt =>                      (* inside the outer try only *)
      Some (l, goto L90 (raise Interrupted f))
  | L84, Run =>
      if llama_outer_lock l
      then Some (set_outer false l, goto L85 (log ReleaseOuter f))
      else Some (l, goto L88 (raise RuntimeError f))
  | L85, Run => Some (l, goto L86 (set_flag false f))
  | L86, Run => Some (l, goto Yielded (log YieldProxy f))
  | Yielded, Next => Some (l, goto L88 f)
  | Yielded, Throw => Some (l, goto L88 (raise Thrown f))
  | Yielded, Close => Some (l, goto L88 (raise GeneratorExit f))
  | L88, Run =>
      if llama_inner_lock l
      then Some (set_inner false l, goto L90 (log ReleaseInner f))
      else Some (l, goto L90 (raise RuntimeError f))
  | L90, Run =>
      if release_outer_lock f
      then if llama_outer_lock l
           then Some (set_outer false l, goto Finished (log ReleaseOuter f))
           else Some (l, goto Finished (raise RuntimeError f))
      else Some (l, goto Finished f)
  | _, _ => None
  end.

(** Leaving the scope: the suspended generator is resumed and runs its two
    [finally] blocks. *)
Definition leave_scope (how : input) (l : Locks) (f : frame) : option (Locks * frame) :=
  '(l1, f1) ← gen_step how l f;
  '(l2, f2) ← gen_step Run l1 f1;
  gen_step Run l2 f2.

(** Any number of callers, each in its own worker thread, share the locks. *)
Record system : Type := mkSystem {
  locks : Locks;
  callers : list frame
}.

Definition init (n : nat) : system :=
  {| locks := {| llama_outer_lock := false; llama_inner_lock := false |};
     callers := replicate n fresh |}.

Definition sys_step (i : nat) (inp : input) (s : system) : option system :=
  f ← callers s !! i;
  '(l', f') ← gen_step inp (locks s) f;
  Some {| locks := l'; callers := <[i := f']> (callers s) |}.

(** A schedule says which caller moves next and how. *)
Fixpoint run (sched : list (nat * input)) (s : system) : option system :=
  match sched with
  | [] => Some s
  | (i, inp) :: rest => s' ← sys_step i inp s; run rest s'
  end.

(** A lock is held by the caller that acquired it more often than it
    released it. *)
Definition occurrences (e : event) (t : list event) : nat :=
  length (filter (λ x, x = e) t).

Definition holds_outer (f : frame) : bool :=
  occurrences ReleaseOuter (trace f) <? occurrences AcquireOuter (trace f).

Definition holds_inner (f : frame) : bool :=
  occurrences ReleaseInner (trace f) <? occurrences AcquireInner (trace f).

(** How many of the callers hold a lock. *)
Definition holders (holds : frame → bool) (l : list frame) : nat :=
  sum_list_with (λ f, Nat.b2n (holds f)) l.

Definition is_resume (inp : input) : bool :=
  match inp with Next | Throw | Close => true | _ => false end.

End Gate.

(* ===================================================================== *)
(** ** Python values, exceptions and the objects the handlers touch *)
(* ===================================================================== *)

Module Py.

#[local] Set Warnings "-register-all".

(** Request and keyword-argument values.  A [str] is held as its UTF-8
    bytes; a [dict] as its items in iteration (insertion) order.  Floats are
    only copied, never computed with. *)
Inductive pyval : Type :=
  | VNone
  | VBool (b : bool)
  | VInt (z : Z)
  | VFloat (bits : Z)                        (* an IEEE-754 double, by its 64 bits *)
  | VStr (s : string)
  | VList (l : list pyval)
  | VDict (d : list (string * pyval))
  | VGrammar (g : string)                    (* a compiled LlamaGrammar *)
  | VMinTokens (min_tokens : Z) (eos : Z).    (* MinTokensLogitsProcessor(min_tokens, eos) *)

Inductive error : Type :=
  | HTTPException (status_code : Z) (detail : string)
  | AssertionError
  | AttributeError
  | TypeError
  | ValueError (msg : string).

Inductive result (A : Type) : Type :=
  | Ok (a : A)
  | Raise (e : error).
Global Arguments Ok {A} a.
Global Arguments Raise {A} e.

(** Sequencing: an exception ends the computation. *)
Global Instance result_bind : MBind result := λ A B k m,
  match m with Ok a => k a | Raise e => Raise e end.

Definition raised {A} (m : result A) : bool :=
  match m with Ok _ => false | Raise _ => true end.

(** [d[k] = v] on an insertion-ordered dict: an existing key keeps its
    place, a new key goes last. *)
Fixpoint dict_set {A} (k : string) (v : A) (d : list (string * A)) : list (string * A) :=
  match d with
  | [] => [(k, v)]
  | (k', v') :: d' =>
      if decide (k' = k) then (k, v) :: d' else (k', v') :: dict_set k v d'
  end.

Fixpoint dict_get {A} (k : string) (d : list (string * A)) : option A :=
  match d with
  | [] => None
  | (k', v') :: d' => if decide (k' = k) then Some v' else dict_get k d'
  end.

(** [s.encode("utf-8")]: the bytes of the string. *)
Definition encode_utf8 (s : string) : list Byte.byte := String.list_byte_of_string s.

(** [str(i)] for an int. *)
Definition str (i : Z) : string := pretty i.

(** The engine handle ([llama_cpp_python.Llama]), as far as app.py uses it. *)
Record Llama : Type := mkLlama {
  model_path : string;
  lora_path : option string;
  tokenize : list Byte.byte → bool (* add_bos *) → bool (* special *) → list Z;
  token_eos : Z
}.

(** [LlamaProxy] (server/model.py): the current engine and the call operator
    that resolves a model name to an engine. *)
Record LlamaProxy : Type := mkLlamaProxy {
  _current_model : option Llama;
  proxy_call : pyval → Llama
}.

(** The fields of [ServerSettings] and [ModelSettings] (server/settings.py)
    that app.py reads. *)
Record ServerSettings : Type := mkServerSettings {
  api_key : option string;
  interrupt_requests : bool
}.

Record ModelSettings : Type := mkModelSettings {
  model : string;
  model_alias : option string;
  embedding : bool;
  is_hf_embedding_model : bool
}.

End Py.

(* ===================================================================== *)
(** ** The streaming publisher: [get_event_publisher] (lines 166-193) and
       the iterator wrapper of the handlers (lines 336-339, 565-568) *)
(* ===================================================================== *)

Module Publisher.
Import Py.

(** An event put on [inner_send_chan]: [dict(data=...)]. *)
Record message : Type := mkMessage { data : string }.

Definition DONE : message := {| data := "[DONE]" |}.

(** The state a streaming session works on. *)
Record session : Type := mkSession {
  gate : Gate.Locks;                 (* the two module-level locks *)
  exit_stack : list Gate.frame;      (* contexts entered on the ExitStack, top first *)
  exited : list Gate.frame;          (* contexts the ExitStack has left *)
  closes : nat;                      (* calls of exit_stack.close() *)
  sent : list message;               (* inner_send_chan, in sending order *)
  pulled : nat                       (* chunks obtained from the iterator *)
}.

Definition send (m : message) (s : session) : session :=
  {| gate := gate s; exit_stack := exit_stack s; exited := exited s;
     closes := closes s; sent := sent s ++ [m]; pulled := pulled s |}.

Definition pull (s : session) : session :=
  {| gate := gate s; exit_stack := exit_stack s; exited := exited s;
     closes := closes s; sent := sent s; pulled := S (pulled s) |}.

(** Between two observations other callers may take or free the outer lock
    (they cannot touch the inner lock, which this session holds). *)
Definition others_move (outer : bool) (s : session) : session :=
  {| gate := Gate.set_outer outer (gate s); exit_stack := exit_stack s;
     exited := exited s; closes := closes s; sent := sent s; pulled := pulled s |}.

(** [ExitStack.close()]: pop every registered context, last in first out,
    and leave it; a context manager made from a generator is left by
    resuming the generator with [next].  (A generator that is not suspended
    at its yield cannot be resumed and is recorded as it is.) *)
Fixpoint leave_all (l : Gate.Locks) (stack done : list Gate.frame)
  : Gate.Locks * list Gate.frame :=
  match stack with
  | [] => (l, done)
  | f :: rest =>
      match Gate.leave_scope Gate.Next l f with
      | Some (l', f') => leave_all l' rest (done ++ [f'])
      | None => leave_all l rest (done ++ [f])
      end
  end.

Definition exit_stack_close (s : session) : session :=
  let '(l, done) := leave_all (gate s) (exit_stack s) (exited s) in
  {| gate := l; exit_stack := []; exited := done;
     closes := S (closes s); sent := sent s; pulled := pulled s |}.

(** How a run of the publisher ends. *)
Inductive outcome : Type :=
  | Returned       (* the coroutine returns *)
  | Cancelled      (* it raises anyio's cancelled-exception class *)
  | EngineFailed.  (* an exception of the iterator propagates *)

(** How the underlying engine iterator ends. *)
Inductive ending : Type := StopIteration | EngineError.

Section WithChunks.
Context {chunk : Type}.
Variable json_dumps : chunk → string.

(** [dict(data=json.dumps(chunk))]. *)
Definition message_of (c : chunk) : message := {| data := json_dumps c |}.

(** A synchronous iterator: the chunks it still yields, and what its last
    [next()] does to the session before it stops. *)
Record iterator : Type := mkIterator {
  chunks : list chunk;
  tail : session → session * ending
}.

(** The generator [iterator()] of the handlers:
    [yield first_response; yield from iterator_or_completion; exit_stack.close()]. *)
Definition handler_iterator (first_response : chunk) (iterator_or_completion : list chunk)
    (e : ending) : iterator :=
  {| chunks := first_response :: iterator_or_completion;
     tail := λ s, match e with
                  | StopIteration => (exit_stack_close s, StopIteration)
                  | EngineError => (s, EngineError)
                  end |}.

(** What the event loop observes: the answer of the i-th
    [request.is_disconnected()] and whether another caller holds the outer
    lock when the i-th chunk has been sent. *)
Record client : Type := mkClient {
  is_disconnected : nat → bool;
  outer_taken : nat → bool
}.

(** Lines 178-185: the [async for] loop and the final [DONE]. *)
Fixpoint publish (interrupt : bool) (env : client) (i : nat)
    (todo : list chunk) (tl : session → session * ending) (s : session)
  : session * outcome :=
  match todo with
  | [] =>
      let '(s, e) := tl s in
      match e with
      | StopIteration => (send DONE s, Returned)                    (* 185 *)
      | EngineError => (s, EngineFailed)
      end
  | c :: rest =>
      let s := send (message_of c) (pull s) in                      (* 178-179 *)
      if is_disconnected env i then (s, Cancelled)                  (* 180-181 *)
      else
        let s := others_move (outer_taken env i) s in
        if interrupt && Gate.llama_outer_lock (gate s)              (* 182 *)
        then (send DONE s, Cancelled)                               (* 183-184 *)
        else publish interrupt env (S i) rest tl s
  end.

Definition get_event_publisher (server_settings : option ServerSettings)
    (env : client) (it : iterator) (on_complete : option (session → session))
    (s : session) : session * outcome :=
  let interrupt :=
    match server_settings with Some st => interrupt_requests st | None => false end in
  let '(s, out) := publish interrupt env 0 (chunks it) (tail it) s in
  (* except Cancelled: print and re-raise; finally: *)
  (match on_complete with Some k => k s | None => s end, out).

(** The streaming branch of [create_completion] / [create_chat_completion]:
    the publisher over the handler's iterator, with
    [on_complete = exit_stack.close]. *)
Definition stream_response (server_settings : option ServerSettings) (env : client)
    (first_response : chunk) (iterator_or_completion : list chunk) (e : ending)
    (s : session) : session * outcome :=
  get_event_publisher server_settings env
    (handler_iterator first_response iterator_or_completion e)
    (Some exit_stack_close) s.

End WithChunks.

(** [exit_stack.enter_context(contextmanager(get_llama_proxy)())]: run the
    generator up to its yield and register it. *)
Definition enter_gate (l : Gate.Locks) : option (Gate.Locks * Gate.frame) :=
  '(l, f) ← Gate.gen_step Gate.Run l Gate.fresh;
  '(l, f) ← Gate.gen_step Gate.Run l f;
  '(l, f) ← Gate.gen_step Gate.Run l f;
  '(l, f) ← Gate.gen_step Gate.Run l f;
  '(l, f) ← Gate.gen_step Gate.Run l f;
  Gate.gen_step Gate.Run l f.

Definition open_session (l : Gate.Locks) : option session :=
  '(l, f) ← enter_gate l;
  Some {| gate := l; exit_stack := [f]; exited := []; closes := 0;
          sent := []; pulled := 0 |}.

End Publisher.

(* ===================================================================== *)
(** ** Request shaping: [_logit_bias_tokens_to_input_ids] (lines 196-205),
       [create_completion] (274-328), [create_chat_completion] (519-557) *)
(* ===================================================================== *)

Module Shaping.
Import Py.

(** Lines 196-205. *)
Definition _logit_bias_tokens_to_input_ids {A} (llama : Llama)
    (logit_bias : list (string * A)) : list (string * A) :=
  foldl (λ to_bias '(token, score),
           foldl (λ to_bias input_id, dict_set (str input_id) score to_bias)
                 to_bias
                 (tokenize llama (encode_utf8 token) false true))
        [] logit_bias.

(** A validated request body: its fields by name.  Reading a field the
    request class does not declare raises [AttributeError]. *)
Definition getattr (body : gmap string pyval) (name : string) : result pyval :=
  match body !! name with
  | Some v => Ok v
  | None => Raise AttributeError
  end.

(** [body.model_dump(exclude=...)]: every field but the excluded ones. *)
Definition model_dump (exclude : gset string) (body : gmap string pyval)
  : gmap string pyval :=
  filter (λ kv, kv.1 ∉ exclude) body.

Definition is_str (v : pyval) (s : string) : bool :=
  match v with VStr s' => bool_decide (s' = s) | _ => false end.

(** What the handler hands to the engine at lines 328 and 557. *)
Record invocation : Type := mkInvocation {
  engine : Llama;
  kwargs : gmap string pyval
}.

Definition completion_exclude : gset string :=
  {[ "n"; "best_of"; "logit_bias_type"; "user"; "min_tokens" ]}.

Definition chat_exclude : gset string :=
  {[ "n"; "logit_bias_type"; "user"; "min_tokens" ]}.

Definition copilot_path : string := "/v1/engines/copilot-codex/completions".

Section WithGrammar.
(** [llama_cpp_python.LlamaGrammar.from_string], which lives outside app.py. *)
Variable from_string : string → result pyval.

(** Lines 306-311 and 536-541. *)
Definition set_logit_bias (llama : Llama) (body kw : gmap string pyval)
  : result (gmap string pyval) :=
  logit_bias ← getattr body "logit_bias";
  match logit_bias with
  | VNone => Ok kw
  | _ =>
      ty ← getattr body "logit_bias_type";
      if is_str ty "tokens"
      then match logit_bias with
           | VDict d =>
               Ok (<["logit_bias" := VDict (_logit_bias_tokens_to_input_ids llama d)]> kw)
           | _ => Raise AttributeError          (* no .items() *)
           end
      else Ok (<["logit_bias" := logit_bias]> kw)
  end.

(** Lines 313-314 and 543-544. *)
Definition set_grammar (body kw : gmap string pyval) : result (gmap string pyval) :=
  grammar ← getattr body "grammar";
  match grammar with
  | VNone => Ok kw
  | VStr g => v ← from_string g; Ok (<["grammar" := v]> kw)
  | _ => Raise TypeError
  end.

(** Lines 316-323 and 546-553. *)
Definition set_min_tokens (llama : Llama) (body kw : gmap string pyval)
  : result (gmap string pyval) :=
  min_tokens ← getattr body "min_tokens";
  match min_tokens with
  | VInt n =>
      if bool_decide (0 < n)%Z
      then
        let _min_tokens_logits_processor := VMinTokens n (token_eos llama) in
        match kw !! "logits_processor" with
        | None => Ok (<["logits_processor" := VList [_min_tokens_logits_processor]]> kw)
        | Some (VList l) =>
            Ok (<["logits_processor" := VList (l ++ [_min_tokens_logits_processor])]> kw)
        | Some _ => Raise AttributeError        (* no .extend() *)
        end
      else Ok kw
  | _ => Raise TypeError
  end.

(** [create_completion] from the 503 check (line 282) to the engine call
    (line 328).  [path] is [request.url.path]; [llama_proxy] is what the
    gate yielded. *)
Definition create_completion (path : string) (llama_proxy : option LlamaProxy)
    (body : gmap string pyval) : result invocation :=
  proxy ← match llama_proxy with
          | None => Raise (HTTPException 503 "Service is not available")
          | Some p => Ok p
          end;
  prompt ← getattr body "prompt";
  body ← match prompt with
         | VList l =>                                            (* 287-289 *)
             if bool_decide (length l ≤ 1)
             then Ok (<["prompt" := match l with p :: _ => p | [] => VStr "" end]> body)
             else Raise AssertionError
         | _ => Ok body
         end;
  name ← (if bool_decide (path ≠ copilot_path)                   (* 291-295 *)
          then getattr body "model" else Ok (VStr "copilot-codex"));
  let llama := proxy_call proxy name in
  let kw := model_dump completion_exclude body in                (* 297-304 *)
  kw ← set_logit_bias llama body kw;
  kw ← set_grammar body kw;
  kw ← set_min_tokens llama body kw;
  Ok {| engine := llama; kwargs := kw |}.                        (* 328 *)

(** [create_chat_completion] from line 523 to the engine call (line 557). *)
Definition create_chat_completion (llama_proxy : option LlamaProxy)
    (body : gmap string pyval) : result invocation :=
  proxy ← match llama_proxy with
          | None => Raise (HTTPException 503 "Service is not available")
          | Some p => Ok p
          end;
  let kw := model_dump chat_exclude body in                      (* 528-534 *)
  name ← getattr body "model";
  let llama := proxy_call proxy name in                          (* 535 *)
  kw ← set_logit_bias llama body kw;
  kw ← set_grammar body kw;
  kw ← set_min_tokens llama body kw;
  Ok {| engine := llama; kwargs := kw |}.                        (* 557 *)

End WithGrammar.

End Shaping.

(* ===================================================================== *)
(** ** Authentication: [authenticate] (lines 212-229) and the routes that
       depend on it *)
(* ===================================================================== *)

Module Auth.
Import Py.

(** What [HTTPBearer(auto_error=False)] hands over: [None] without a usable
    bearer header. *)
Record HTTPAuthorizationCredentials : Type := mkCredentials {
  scheme : string;
  credentials : string
}.

Definition authenticate (settings : ServerSettings)
    (authorization : option HTTPAuthorizationCredentials) : result pyval :=
  match api_key settings with
  | None => Ok (VBool true)                                      (* 217-218 *)
  | Some key =>
      match authorization with
      | Some a =>
          if bool_decide (credentials a = key)                   (* 221 *)
          then Ok (VStr (credentials a))                         (* 223 *)
          else Raise (HTTPException 401 "Invalid API key")
      | None => Raise (HTTPException 401 "Invalid API key")      (* 226-229 *)
      end
  end.

(** The dependencies a route decorator lists in [dependencies=[...]]. *)
Inductive dependency : Type := Depends_authenticate.

Global Instance dependency_eq_dec : EqDecision dependency.
Proof. solve_decision. Defined.

Record route : Type := mkRoute {
  method : string;
  path : string;
  dependencies : list dependency;
  endpoint : string
}.

Definition introspection_path : string := "/v1/internal/model/info".

(** The decorators of app.py, in source order. *)
Definition router : list route :=
  [ mkRoute "POST" "/v1/completions" [Depends_authenticate] "create_completion";       (* 235-267 *)
    mkRoute "POST" "/v1/engines/copilot-codex/completions" [Depends_authenticate]
            "create_completion";                                                       (* 268-273 *)
    mkRoute "POST" "/v1/embeddings" [Depends_authenticate] "create_embedding";         (* 358-363 *)
    mkRoute "POST" "/v1/chat/completions" [Depends_authenticate]
            "create_chat_completion";                                                  (* 410-441 *)
    mkRoute "GET" "/v1/models" [Depends_authenticate] "get_models";                    (* 588-593 *)
    mkRoute "POST" "/extras/tokenize" [Depends_authenticate] "tokenize";               (* 614-619 *)
    mkRoute "POST" "/extras/tokenize/count" [Depends_authenticate]
            "count_query_tokens";                                                      (* 629-634 *)
    mkRoute "POST" "/extras/detokenize" [Depends_authenticate] "detokenize";           (* 644-649 *)
    mkRoute "GET" introspection_path [Depends_authenticate] "info" ].                  (* 659-664 *)

Definition requires_auth (r : route) : bool :=
  bool_decide (Depends_authenticate ∈ dependencies r).

(** The route's dependencies are solved before its endpoint runs; a raised
    exception is the response. *)
Definition solve_dependencies (r : route) (settings : ServerSettings)
    (authorization : option HTTPAuthorizationCredentials) : result unit :=
  if requires_auth r
  then _ ← authenticate settings authorization; Ok tt
  else Ok tt.

End Auth.

(* ===================================================================== *)
(** ** Model resolution for embeddings (lines 368-377) and the
       introspection endpoint [info] (lines 665-671) *)
(* ===================================================================== *)

Module Registry.
Import Py.

(** The loop of lines 369-375: the value of [setting] when it ends. *)
Fixpoint select_setting (request_model : option string)
    (_model_settings : list ModelSettings) : option ModelSettings :=
  match _model_settings with
  | [] => None
  | m :: rest =>
      if bool_decide (request_model = None) && embedding m then Some m
      else if embedding m
              && (bool_decide (request_model = Some (model m))
                  || bool_decide (request_model = model_alias m))
      then Some m
      else select_setting request_model rest
  end.

Definition no_embedding_model : string :=
  "no embedding model or no match correct embedding model name. use embedding=True to note embedding model".

(** Lines 368-377 of [create_embedding]. *)
Definition create_embedding_setting (request_model : option string)
    (_model_settings : list ModelSettings) : result ModelSettings :=
  match select_setting request_model _model_settings with
  | Some setting => Ok setting
  | None => Raise (ValueError no_embedding_model)
  end.

(** The resolution order as the specification words it: among the
    embedding-capable entries, an entry whose alias is the requested name
    first, else an entry whose alias or model name is the requested name;
    without a requested name, the first embedding-capable entry. *)
Definition resolve_as_specified (request_model : option string)
    (_model_settings : list ModelSettings) : option ModelSettings :=
  let capable := filter (λ m, embedding m = true) _model_settings in
  match request_model with
  | None => head capable
  | Some name =>
      match list_find (λ m, model_alias m = Some name) capable with
      | Some (_, m) => Some m
      | None =>
          snd <$> list_find (λ m, model_alias m = Some name ∨ model m = name) capable
      end
  end.

Definition opt_str (o : option string) : pyval :=
  match o with Some s => VStr s | None => VNone end.

(** The loop of [info]; falling off its end returns [None]. *)
Fixpoint info_loop (_model_settings : list ModelSettings)
    (_llama_proxy : option LlamaProxy) : result pyval :=
  match _model_settings with
  | [] => Ok VNone
  | m :: rest =>
      match _llama_proxy with
      | None => Raise AttributeError                 (* None._current_model *)
      | Some proxy =>
          match _current_model proxy with
          | None => Raise AttributeError             (* None.model_path *)
          | Some current =>
              if bool_decide (model_path current = model m)             (* 667 *)
              then Ok (VDict
                     [ ("model_name",
                        VStr (match model_alias m with
                              | Some a => a
                              | None => model m
                              end));                                    (* 669 *)
                       ("lora_names", opt_str (lora_path current)) ])   (* 670 *)
              else info_loop rest _llama_proxy
          end
      end
  end.

(** [_model_settings] is [None] until [create_app] has stored the list. *)
Definition info (_model_settings : option (list ModelSettings))
    (_llama_proxy : option LlamaProxy) : result pyval :=
  match _model_settings with
  | None => Raise TypeError                          (* for ... in None *)
  | Some l => info_loop l _llama_proxy
  end.

End Registry.

(* ===================================================================== *)
(** ** The handlers after the engine call: lines 325-355 and 555-585 *)
(* ===================================================================== *)

Module Handlers.
Import Py Publisher Shaping.

Section WithEngine.
Context {chunk : Type}.
Variable json_dumps : chunk → string.
Variable from_string : string → result pyval.

(** What the engine call and, for an iterator, the first [next] give. *)
Inductive generation : Type :=
  | Completed (completion : pyval)                    (* not an Iterator *)
  | Streaming (first_response : chunk) (iterator_or_completion : list chunk)
              (e : ending)
  | Failed (e : error).                               (* the call or the first next raises *)

(** What the handler returns. *)
Inductive response : Type :=
  | JSON (completion : pyval)
  | EventSourceResponse (out : outcome).


(** [create_chat_completion] likewise, lines 519-585. *)
Definition create_chat_completion_request (llama_proxy : option LlamaProxy)
    (body : gmap string pyval) (call : invocation → generation)
    (server_settings : option ServerSettings) (env : client) (s : session)
  : session * result response :=
  match create_chat_completion from_string llama_proxy body with
  | Raise e => (s, Raise e)
  | Ok inv =>
      match call inv with
      | Failed e => (s, Raise e)
      | Streaming first_response iterator_or_completion e =>         (* 559-582 *)
          let '(s, out) :=
            stream_response json_dumps server_settings env
              first_response iterator_or_completion e s in
          (s, Ok (EventSourceResponse out))
      | Completed completion =>                                      (* 583-585 *)
          (exit_stack_close s, Ok (JSON completion))
      end
  end.

End WithEngine.

End Handlers.

(* ===================================================================== *)
(** ** [create_embedding] after the resolution: lines 379-407 *)
(* ===================================================================== *)

Module Embedding.
Import Py Shaping Registry.

(** [sentence_transformers.SentenceTransformer], as far as app.py uses it. *)
Record SentenceTransformer : Type := mkSentenceTransformer {
  (* encode(inputs, normalize_embeddings=True), each row as [emb.tolist()] *)
  encode : list pyval → list (list pyval);
  (* tokenize(inputs)['attention_mask'].sum().item() *)
  attention_mask_sum : list pyval → Z
}.

(** A validated [CreateEmbeddingRequest]: the two fields the handler reads
    and the remaining declared fields ([user] among them) by name. *)
Record CreateEmbeddingRequest : Type := mkEmbeddingRequest {
  request_model : option string;
  request_input : pyval;
  request_rest : gmap string pyval
}.

(** [request.model_dump()] before the exclusion. *)
Definition request_fields (request : CreateEmbeddingRequest) : gmap string pyval :=
  <["model" := opt_str (request_model request)]>
    (<["input" := request_input request]> (request_rest request)).

(** The module-level cache [hf_embedding_model], and the constructor calls
    made so far (name and device), in order. *)
Record cache : Type := mkCache {
  hf_embedding_model : gmap string SentenceTransformer;
  constructed : list (string * option string)
}.

Definition empty_cache : cache := {| hf_embedding_model := ∅; constructed := [] |}.

(** What the handler ends with: the dictionary of lines 394-402, or the call
    of [llama.create_embedding] with keyword arguments, lines 404-407. *)
Inductive served : Type :=
  | Response (body : pyval)
  | EngineEmbedding (llama : Llama) (kwargs : gmap string pyval).

(** [request.input if isinstance(request.input, list) else [request.input]]. *)
Definition as_list (input : pyval) : list pyval :=
  match input with VList l => l | v => [v] end.

Section WithLoader.
(** The field [n_ctx] of [ModelSettings] and the constructor
    [SentenceTransformer(name, device=...)]. *)
Variable n_ctx : ModelSettings → Z.
Variable load : string → option string → SentenceTransformer.

(** Lines 380-383. *)
Definition hf_model (setting : ModelSettings) (c : cache) : cache * SentenceTransformer :=
  match hf_embedding_model c !! model setting with
  | Some m => (c, m)
  | None =>
      let device := if bool_decide (n_ctx setting ≠ (-1)%Z) then Some "cpu" else None in
      let m := load (model setting) device in
      ({| hf_embedding_model := <[model setting := m]> (hf_embedding_model c);
          constructed := constructed c ++ [(model setting, device)] |}, m)
  end.

(** Lines 384-402. *)
Definition hf_response (setting : ModelSettings) (m : SentenceTransformer)
    (input : pyval) : pyval :=
  let embeds := encode m (as_list input) in
  let data :=
    imap (λ idx emb, VDict [ ("object", VStr "embedding");
                             ("embedding", VList emb);
                             ("index", VInt (Z.of_nat idx)) ]) embeds in
  let total_tokens := attention_mask_sum m (as_list input) in
  VDict [ ("object", VStr "list");
          ("data", VList data);
          ("model", VStr (match model_alias setting with
                          | Some a => a
                          | None => model setting
                          end));
          ("usage", VDict [ ("prompt_tokens", VInt total_tokens);
                            ("total_tokens", VInt total_tokens) ]) ].

(** Lines 364-407. *)
Definition create_embedding (_model_settings : list ModelSettings)
    (request : CreateEmbeddingRequest) (llama_proxy : option LlamaProxy) (c : cache)
  : cache * result served :=
  match select_setting (request_model request) _model_settings with
  | None => (c, Raise (ValueError no_embedding_model))                (* 376-377 *)
  | Some setting =>
      if is_hf_embedding_model setting then                           (* 379 *)
        let '(c, m) := hf_model setting c in
        (c, Ok (Response (hf_response setting m (request_input request))))
      else
        match llama_proxy with
        | None => (c, Raise TypeError)                                (* None(...) *)
        | Some proxy =>
            (c, Ok (EngineEmbedding
                      (proxy_call proxy (opt_str (request_model request)))
                      (model_dump {[ "user" ]} (request_fields request))))
        end
  end.

(** Requests served one after the other. *)
Fixpoint serve_all (_model_settings : list ModelSettings)
    (requests : list CreateEmbeddingRequest) (llama_proxy : option LlamaProxy)
    (c : cache) : cache :=
  match requests with
  | [] => c
  | r :: rest =>
      serve_all _model_settings rest llama_proxy
        (create_embedding _model_settings r llama_proxy c).1
  end.

End WithLoader.

End Embedding.

(* ===================================================================== *)
(** ** [create_app]: lines 107-163, with the setters of lines 55-104 *)
(* ===================================================================== *)

Module App.
Import Py.

(** [s.endswith(suffix)]. *)
Definition endswith (s suffix : string) : bool :=
  String.prefix (String.rev suffix) (String.rev s).

(** The module-level variables [create_app] assigns. *)
Inductive ping_factory : Type := EmptyBytes.     (* lambda: bytes() *)

Record globals : Type := mkGlobals {
  _server_settings : option ServerSettings;
  _model_settings : option (list ModelSettings);
  _llama_proxy : option LlamaProxy;
  _ping_message_factory : option ping_factory
}.

Definition set_server_settings (server_settings : ServerSettings) (g : globals) :=
  {| _server_settings := Some server_settings; _model_settings := _model_settings g;
     _llama_proxy := _llama_proxy g; _ping_message_factory := _ping_message_factory g |}.

Definition set_model_settings (model_settings : list ModelSettings) (g : globals) :=
  {| _server_settings := _server_settings g; _model_settings := Some model_settings;
     _llama_proxy := _llama_proxy g; _ping_message_factory := _ping_message_factory g |}.

Definition set_ping_message_factory (factory : ping_factory) (g : globals) :=
  {| _server_settings := _server_settings g; _model_settings := _model_settings g;
     _llama_proxy := _llama_proxy g; _ping_message_factory := Some factory |}.

(** What the process sees: the variable [CONFIG_FILE] and the files. *)
Record world : Type := mkWorld {
  CONFIG_FILE : option string;
  files : gmap string (list Byte.byte)
}.

Section CreateApp.
(** The classes of server/settings.py and server/model.py, as far as
    [create_app] uses them. *)
Context {Settings ConfigFileSettings : Type}.
Variable Settings_new : result Settings.       (* Settings(), read from the environment *)
Variable server_of : Settings → ServerSettings.       (* ServerSettings.model_validate *)
Variable model_of : Settings → ModelSettings.          (* ModelSettings.model_validate *)
Variable server_of_config : ConfigFileSettings → ServerSettings.
Variable models_of_config : ConfigFileSettings → list ModelSettings.     (* .models *)
Variable validate_json : list Byte.byte → result ConfigFileSettings.
Variable yaml_to_json : list Byte.byte → result (list Byte.byte)
  (* json.dumps(yaml.safe_load(f)) *).
Variable LlamaProxy_new : list ModelSettings → result LlamaProxy
  (* LlamaProxy(models=...) *).
Variable disable_ping_events : ServerSettings → bool.

Definition set_llama_proxy (model_settings : list ModelSettings) (g : globals)
  : globals * result unit :=
  match LlamaProxy_new model_settings with
  | Ok proxy =>
      ({| _server_settings := _server_settings g; _model_settings := _model_settings g;
          _llama_proxy := Some proxy;
          _ping_message_factory := _ping_message_factory g |}, Ok tt)
  | Raise e => (g, Raise e)
  end.

(** Lines 112-127: the settings read from the configuration file. *)
Definition read_config (w : world) (config_file : string)
  : result (ServerSettings * list ModelSettings) :=
  match files w !! config_file with
  | None => Raise (ValueError ("Config file " +:+ config_file +:+ " not found!"))
  | Some f =>
      config_file_settings ←
        (if endswith config_file ".yaml" || endswith config_file ".yml"
         then json ← yaml_to_json f; validate_json json
         else validate_json f);
      Ok (server_of_config config_file_settings, models_of_config config_file_settings)
  end.

Definition create_app (w : world) (settings : option Settings)
    (server_settings : option ServerSettings)
    (model_settings : option (list ModelSettings)) (g : globals)
  : globals * result unit :=
  let chosen :=
    '(server_settings, model_settings) ←
      match CONFIG_FILE w with
      | Some config_file =>                                          (* 113-127 *)
          '(ss, ms) ← read_config w config_file; Ok (Some ss, Some ms)
      | None => Ok (server_settings, model_settings)
      end;
    match server_settings, model_settings with
    | None, None =>                                                  (* 129-133 *)
        settings ← match settings with Some s => Ok s | None => Settings_new end;
        Ok (Some (server_of settings), Some [model_of settings])
    | _, _ => Ok (server_settings, model_settings)
    end in
  match chosen with
  | Raise e => (g, Raise e)
  | Ok (Some server_settings, Some model_settings) =>                (* 135-137 *)
      let g := set_server_settings server_settings g in              (* 139 *)
      let g := set_model_settings model_settings g in                (* 140 *)
      match set_llama_proxy model_settings g with                    (* 158 *)
      | (g, Raise e) => (g, Raise e)
      | (g, Ok _) =>
          if disable_ping_events server_settings                     (* 160-161 *)
          then (set_ping_message_factory EmptyBytes g, Ok tt)
          else (g, Ok tt)
      end
  | Ok _ => (g, Raise AssertionError)
  end.

End CreateApp.

End App.

(* ===================================================================== *)
(** * Properties *)
(* ===================================================================== *)

(** ** The access gate *)

Module GateFacts.
Import Gate.

(** The log and the locals a frame can have at each program point. *)
Definition shape (f : frame) : Prop :=
  match at_line f with
  | L79 => trace f = [] ∧ pending f = None
  | L80 => trace f = [AcquireOuter] ∧ pending f = None
  | L82 => trace f = [AcquireOuter] ∧ release_outer_lock f = true ∧ pending f = None
  | L84 =>
      trace f = [AcquireOuter; AcquireInner]
      ∧ release_outer_lock f = true ∧ pending f = None
  | L85 => trace f = [AcquireOuter; AcquireInner; ReleaseOuter] ∧ pending f = None
  | L86 =>
      trace f = [AcquireOuter; AcquireInner; ReleaseOuter]
      ∧ release_outer_lock f = false ∧ pending f = None
  | Yielded =>
      trace f = [AcquireOuter; AcquireInner; ReleaseOuter; YieldProxy]
      ∧ release_outer_lock f = false ∧ pending f = None
  | L88 =>
      trace f = [AcquireOuter; AcquireInner; ReleaseOuter; YieldProxy]
      ∧ release_outer_lock f = false ∧ pending f ≠ Some RuntimeError
  | L90 =>
      (trace f = [AcquireOuter; AcquireInner; ReleaseOuter; YieldProxy; ReleaseInner]
       ∧ release_outer_lock f = false ∧ pending f ≠ Some RuntimeError)
      ∨ (trace f = [AcquireOuter]
         ∧ release_outer_lock f = true ∧ pending f = Some Interrupted)
  | Finished =>
      (trace f = [AcquireOuter; AcquireInner; ReleaseOuter; YieldProxy; ReleaseInner]
       ∧ pending f ≠ Some RuntimeError)
      ∨ (trace f = [AcquireOuter; ReleaseOuter] ∧ pending f = Some Interrupted)
      ∨ (trace f = [] ∧ pending f = Some Interrupted)
  end.

(** Which program points hold which lock. *)
Definition outer_at (f : frame) : bool :=
  match at_line f with
  | L80 | L82 | L84 => true
  | L90 => release_outer_lock f
  | _ => false
  end.

Definition inner_at (f : frame) : bool :=
  match at_line f with
  | L84 | L85 | L86 | Yielded | L88 => true
  | _ => false
  end.

(** The system invariant: every frame has a legal shape and each lock flag
    counts its holders. *)
Definition inv (s : system) : Prop :=
  Forall shape (callers s)
  ∧ holders holds_outer (callers s) = Nat.b2n (llama_outer_lock (locks s))
  ∧ holders holds_inner (callers s) = Nat.b2n (llama_inner_lock (locks s)).

Lemma shape_holds f :
  shape f → holds_outer f = outer_at f ∧ holds_inner f = inner_at f.
Proof.
  destruct f as [p b e t]. unfold shape, holds_outer, holds_inner, outer_at, inner_at.
  destruct p; simpl; intros H; destruct_and?; destruct_or?; destruct_and?;
    subst; done.
Qed.

Lemma holders_insert holds l i x y :
  l !! i = Some x →
  holders holds (<[i:=y]> l) + Nat.b2n (holds x) = holders holds l + Nat.b2n (holds y).
Proof.
  unfold holders. revert i. induction l as [|a l IH]; intros [|i] H; simplify_eq/=.
  - lia.
  - specialize (IH _ H). lia.
Qed.

Lemma holders_member holds l i x :
  l !! i = Some x → holds x = true → 1 ≤ holders holds l.
Proof.
  unfold holders. revert i. induction l as [|a l IH]; intros [|i] H Hx; simplify_eq/=.
  - rewrite Hx. simpl. lia.
  - specialize (IH _ H Hx). lia.
Qed.

Lemma init_inv n : inv (init n).
Proof.
  unfold inv, init; simpl. split_and!.
  - apply Forall_replicate. by split.
  - induction n; simpl; auto.
  - induction n; simpl; auto.
Qed.

Lemma step_inv i inp s s' : sys_step i inp s = Some s' → inv s → inv s'.
Proof.
  unfold sys_step. intros Hstep (Hshape & Ho & Hi).
  destruct (callers s !! i) as [f|] eqn:Hf; simplify_eq/=.
  destruct (gen_step inp (locks s) f) as [[l' f']|] eqn:Hg; simplify_eq/=.
  pose proof (proj1 (Forall_lookup _ _) Hshape _ _ Hf) as Hsf.
  destruct (shape_holds f Hsf) as [Eo Ei].
  pose proof (holders_insert holds_outer _ _ _ f' Hf) as Co.
  pose proof (holders_insert holds_inner _ _ _ f' Hf) as Ci.
  assert (Hf' : shape f' ∧ outer_at f' = outer_at f ∧ inner_at f' = inner_at f
                ∧ l' = locks s
              ∨ shape f' ∧ l' = set_outer (outer_at f') (locks s)
                ∧ inner_at f' = inner_at f ∧ outer_at f' = negb (outer_at f)
                ∧ llama_outer_lock (locks s) = outer_at f
              ∨ shape f' ∧ l' = set_inner (inner_at f') (locks s)
                ∧ outer_at f' = outer_at f ∧ inner_at f' = negb (inner_at f)
                ∧ llama_inner_lock (locks s) = inner_at f).
  { clear Co Ci.
    pose proof (holders_member holds_outer _ _ _ Hf) as Mo.
    pose proof (holders_member holds_inner _ _ _ Hf) as Mi.
    rewrite Eo in Mo. rewrite Ei in Mi. rewrite Ho in Mo. rewrite Hi in Mi.
    destruct s as [[o n] cs], f as [p b e t]. simpl in *.
    unfold gen_step in Hg. unfold shape, outer_at, inner_at in *. simpl in *.
    destruct p, inp; simplify_eq/=; destruct_and?; destruct_or?; destruct_and?;
      simplify_eq/=;
      repeat match goal with
             | H : (if ?c then _ else _) = Some _ |- _ => destruct c eqn:?; simplify_eq/=
             end;
      try (specialize (Mo eq_refl)); try (specialize (Mi eq_refl)); simpl in *;
      try lia;
      unfold set_outer, set_inner, goto, log, raise, set_flag; simpl;
      first [ solve [left; split_and!; (done || auto)]
            | solve [right; left; split_and!; (done || auto)]
            | solve [right; right; split_and!; (done || auto)] ]. }
  unfold inv; simpl.
  destruct Hf' as [(Hs' & Eo' & Ei' & ->)|[(Hs' & -> & Ei' & Eo' & El)|(Hs' & -> & Eo' & Ei' & El)]];
    destruct (shape_holds f' Hs') as [Fo Fi];
    rewrite Eo, Fo in Co; rewrite Ei, Fi in Ci;
    (split_and!; [by apply Forall_insert | |]); simpl.
  - rewrite Eo' in Co. lia.
  - rewrite Ei' in Ci. lia.
  - rewrite Eo' in Co |- *. rewrite El in Ho. destruct (outer_at f); simpl in *; lia.
  - rewrite Ei' in Ci. lia.
  - rewrite Eo' in Co. lia.
  - rewrite Ei' in Ci |- *. rewrite El in Hi. destruct (inner_at f); simpl in *; lia.
Qed.

Lemma run_inv sched s s' : run sched s = Some s' → inv s → inv s'.
Proof.
  revert s. induction sched as [|[i inp] sched IH]; intros s H Hinv; simplify_eq/=.
  - done.
  - destruct (sys_step i inp s) as [s1|] eqn:Hs; simplify_eq/=.
    eauto using step_inv.
Qed.

Lemma sys_step_at i inp s f l' f' :
  callers s !! i = Some f →
  gen_step inp (locks s) f = Some (l', f') →
  sys_step i inp s = Some {| locks := l'; callers := <[i:=f']> (callers s) |}.
Proof. intros Hf Hg. unfold sys_step. rewrite Hf. simpl. by rewrite Hg. Qed.








End GateFacts.

(** ** The streaming publisher *)

Module PublisherFacts.
Import Py Gate Publisher.

(** The publisher's effect on the session while the stream goes on: chunk
    [i], [i+1], ... pulled and sent, the outer lock observed after each. *)
Fixpoint advance {chunk} (json_dumps : chunk → string) (env : client) (i : nat)
    (pre : list chunk) (s : session) : session :=
  match pre with
  | [] => s
  | c :: pre' =>
      advance json_dumps env (S i) pre'
        (others_move (outer_taken env i) (send (message_of json_dumps c) (pull s)))
  end.

(** [on_complete] in the [finally] block. *)
Definition finally (on_complete : option (session → session)) (s : session) : session :=
  match on_complete with Some k => k s | None => s end.

(** The generator of [get_llama_proxy] as it is suspended on the exit stack
    of a request. *)
Definition entered : frame :=
  {| at_line := Yielded; release_outer_lock := false; pending := None;
     trace := [AcquireOuter; AcquireInner; ReleaseOuter; YieldProxy] |}.

Definition left : frame :=
  {| at_line := Finished; release_outer_lock := false; pending := None;
     trace := [AcquireOuter; AcquireInner; ReleaseOuter; YieldProxy; ReleaseInner] |}.

(** The gate token is still held and registered for cleanup. *)
Definition armed (s : session) : Prop :=
  exit_stack s = [entered] ∧ exited s = [] ∧ closes s = 0
  ∧ llama_inner_lock (gate s) = true.

(** The cleanup has run, once, after [n] calls of [exit_stack.close()]. *)
Definition cleaned (n : nat) (s : session) : Prop :=
  exit_stack s = [] ∧ exited s = [left] ∧ closes s = n
  ∧ llama_inner_lock (gate s) = false.

Section Facts.
Context {chunk : Type}.
Variable json_dumps : chunk → string.

Lemma advance_sent env i pre s :
  sent (advance json_dumps env i pre s) = sent s ++ (message_of json_dumps <$> pre).
Proof.
  revert i s. induction pre as [|c pre IH]; intros i s; simpl.
  - by rewrite app_nil_r.
  - rewrite IH. simpl. by rewrite <- app_assoc.
Qed.

Lemma advance_pulled env i pre s :
  pulled (advance json_dumps env i pre s) = pulled s + length pre.
Proof.
  revert i s. induction pre as [|c pre IH]; intros i s; simpl.
  - lia.
  - rewrite IH. simpl. lia.
Qed.

Lemma advance_cleanup env i pre s :
  exit_stack (advance json_dumps env i pre s) = exit_stack s
  ∧ exited (advance json_dumps env i pre s) = exited s
  ∧ closes (advance json_dumps env i pre s) = closes s
  ∧ llama_inner_lock (gate (advance json_dumps env i pre s)) = llama_inner_lock (gate s).
Proof.
  revert i s. induction pre as [|c pre IH]; intros i s; simpl; [done|].
  destruct (IH (S i) (others_move (outer_taken env i) (send (message_of json_dumps c) (pull s))))
    as (-> & -> & -> & ->). done.
Qed.

(** As long as no stop condition fires, the loop goes on. *)
Lemma publish_prefix interrupt env i pre rest tl s :
  (∀ j, j < length pre →
        is_disconnected env (i + j) = false
        ∧ interrupt && outer_taken env (i + j) = false) →
  publish json_dumps interrupt env i (pre ++ rest) tl s
  = publish json_dumps interrupt env (i + length pre) rest tl
      (advance json_dumps env i pre s).
Proof.
  revert i s. induction pre as [|c pre IH]; intros i s H; simpl.
  - by rewrite Nat.add_0_r.
  - destruct (H 0) as [Hd Hc]; [simpl; lia|]. rewrite Nat.add_0_r in Hd, Hc.
    rewrite Hd. simpl. rewrite Hc. rewrite IH.
    + by rewrite Nat.add_succ_r.
    + intros j Hj. specialize (H (S j)). rewrite Nat.add_succ_r in H.
      apply H. simpl. lia.
Qed.

Section Encoder.
(** [json.dumps] never returns the text [[DONE]], which is not JSON. *)
Hypothesis json_dumps_not_DONE : ∀ c, json_dumps c ≠ "[DONE]".

Lemma DONE_not_a_chunk (l : list chunk) : DONE ∉ message_of json_dumps <$> l.
Proof.
  intros (c & Hc & _)%list_elem_of_fmap. unfold DONE, message_of in Hc.
  injection Hc as Hc. by eapply json_dumps_not_DONE.
Qed.

(** C2.  With [interrupt_requests] on: when the stream has gone on for the
    chunks [pre], and after chunk [c] has been sent the client is still
    connected and the outer lock is taken, the publisher has sent the frames
    of [pre] and [c], then the single frame [[DONE]] (no chunk frame is a
    [[DONE]] frame), raises the cancellation and has pulled no chunk after
    [c]; the iterator's tail has not run. *)
Theorem publisher_interrupts_on_contention (st : ServerSettings) (env : client)
    (it : iterator) (on_complete : option (session → session)) (s : session)
    (pre : list chunk) (c : chunk) (post : list chunk) :
  interrupt_requests st = true →
  chunks it = pre ++ c :: post →
  (∀ j, j < length pre → is_disconnected env j = false ∧ outer_taken env j = false) →
  is_disconnected env (length pre) = false →
  outer_taken env (length pre) = true →
  ∃ s1,
    get_event_publisher json_dumps (Some st) env it on_complete s
    = (finally on_complete s1, Cancelled)
    ∧ sent s1 = sent s ++ (message_of json_dumps <$> (pre ++ [c])) ++ [DONE]
    ∧ (DONE ∉ message_of json_dumps <$> (pre ++ [c]))
    ∧ pulled s1 = pulled s + length pre + 1
    ∧ closes s1 = closes s ∧ exit_stack s1 = exit_stack s.
Proof.
  intros Hint Hit Hpre Hd Ht.
  unfold get_event_publisher. rewrite Hint, Hit.
  rewrite publish_prefix; last first.
  { intros j Hj. simpl. destruct (Hpre j Hj) as [-> ->]. done. }
  simpl. rewrite Hd. simpl. rewrite Ht. simpl.
  eexists. split; [reflexivity|]. simpl.
  rewrite advance_sent, advance_pulled.
  destruct (advance_cleanup env 0 pre s) as (-> & _ & -> & _).
  split_and!; try done.
  - rewrite fmap_app. simpl. by rewrite <- !app_assoc.
  - apply DONE_not_a_chunk.
  - lia.
Qed.

(** C4.  When the stream has gone on for the chunks [pre] and the client is
    found disconnected after chunk [c] has been sent, the publisher has sent
    the frames of [pre] and [c] and nothing else (no [[DONE]] frame, no
    error frame), raises the cancellation and has pulled no chunk after [c];
    the iterator's tail has not run. *)
Theorem publisher_aborts_on_disconnect (server_settings : option ServerSettings)
    (env : client) (it : iterator) (on_complete : option (session → session))
    (s : session) (pre : list chunk) (c : chunk) (post : list chunk) :
  chunks it = pre ++ c :: post →
  (∀ j, j < length pre →
        is_disconnected env j = false
        ∧ (match server_settings with
           | Some st => interrupt_requests st
           | None => false
           end && outer_taken env j = false)) →
  is_disconnected env (length pre) = true →
  ∃ s1,
    get_event_publisher json_dumps server_settings env it on_complete s
    = (finally on_complete s1, Cancelled)
    ∧ sent s1 = sent s ++ (message_of json_dumps <$> (pre ++ [c]))
    ∧ (DONE ∉ message_of json_dumps <$> (pre ++ [c]))
    ∧ pulled s1 = pulled s + length pre + 1
    ∧ closes s1 = closes s ∧ exit_stack s1 = exit_stack s.
Proof.
  intros Hit Hpre Hd.
  unfold get_event_publisher. rewrite Hit.
  rewrite publish_prefix; [|done].
  simpl. rewrite Hd.
  eexists. split; [reflexivity|]. simpl.
  rewrite advance_sent, advance_pulled.
  destruct (advance_cleanup env 0 pre s) as (-> & _ & -> & _).
  split_and!; try done.
  - rewrite fmap_app. simpl. by rewrite <- !app_assoc.
  - apply DONE_not_a_chunk.
  - lia.
Qed.

End Encoder.

Lemma open_session_armed l0 s0 : open_session l0 = Some s0 → armed s0.
Proof.
  destruct l0 as [[] []]; intros H; vm_compute in H; simplify_eq.
  by split_and!.
Qed.

Lemma close_armed s :
  armed s →
  cleaned 1 (exit_stack_close s)
  ∧ sent (exit_stack_close s) = sent s ∧ pulled (exit_stack_close s) = pulled s.
Proof.
  destruct s as [[o n] st ex cl se pu]. unfold armed, cleaned, exit_stack_close.
  simpl. intros (-> & -> & -> & ->). by split_and!.
Qed.

Lemma close_cleaned n s :
  cleaned n s →
  cleaned (S n) (exit_stack_close s)
  ∧ sent (exit_stack_close s) = sent s ∧ pulled (exit_stack_close s) = pulled s.
Proof.
  destruct s as [[o i] st ex cl se pu]. unfold cleaned, exit_stack_close.
  simpl. intros (-> & -> & -> & ->). by split_and!.
Qed.

(** The loop over the handler's iterator either runs the iterator's tail,
    which cleans up, and returns; or stops early with the token still held. *)
Lemma publish_cleanup interrupt env i (todo : list chunk) (first : chunk) rest e s :
  armed s →
  let r := publish json_dumps interrupt env i todo
             (tail (handler_iterator first rest e)) s in
  (r.2 = Returned ∧ cleaned 1 r.1) ∨ (r.2 ≠ Returned ∧ armed r.1).
Proof.
  revert i s. induction todo as [|c todo IH]; intros i s Hs; simpl.
  - destruct e; simpl.
    + left. split; [done|]. by destruct (close_armed s Hs) as [? _].
    + by right.
  - destruct (is_disconnected env i); [by right|].
    destruct (interrupt && _); [by right|].
    apply IH. destruct Hs as (? & ? & ? & ?). by split_and!.
Qed.

(** C3.  A streaming response of either handler, started after the gate has
    been passed, ends (iterator exhausted, client gone, contention, or an
    engine exception) with the exit stack empty and the gate's context left
    exactly once: one finished generator, no failed release, exactly one
    release of the inner lock, which is free afterwards.  When the iterator
    was exhausted, [exit_stack.close()] was called twice (by the iterator's
    tail and by [on_complete]), otherwise once. *)
Theorem stream_cleanup_exactly_once (server_settings : option ServerSettings)
    (env : client) (first_response : chunk) (iterator_or_completion : list chunk)
    (e : ending) (l0 : Locks) (s0 : session) :
  open_session l0 = Some s0 →
  ∃ s' out f',
    stream_response json_dumps server_settings env first_response
      iterator_or_completion e s0 = (s', out)
    ∧ exit_stack s' = []
    ∧ exited s' = [f']
    ∧ at_line f' = Finished
    ∧ pending f' = None
    ∧ occurrences ReleaseInner (trace f') = 1
    ∧ holds_inner f' = false
    ∧ llama_inner_lock (gate s') = false
    ∧ closes s' = match out with Returned => 2 | _ => 1 end.
Proof.
  intros Hs0%open_session_armed.
  unfold stream_response, get_event_publisher.
  set (interrupt := match server_settings with
                    | Some st => interrupt_requests st
                    | None => false
                    end).
  pose proof (publish_cleanup interrupt env 0
                (chunks (handler_iterator first_response iterator_or_completion e))
                first_response iterator_or_completion e s0 Hs0) as H.
  cbv zeta in H.
  destruct (publish json_dumps interrupt env 0 _ _ s0) as [s1 out].
  simpl in H. destruct H as [[-> Hc]|[Hout Ha]].
  - destruct (close_cleaned 1 s1 Hc) as [(? & ? & ? & ?) _].
    exists (exit_stack_close s1), Returned, left. by split_and!.
  - destruct (close_armed s1 Ha) as [(? & ? & ? & ?) _].
    exists (exit_stack_close s1), out, left. split_and!; try done.
    by destruct out.
Qed.

End Facts.

(** A sample session: chunks are already-encoded JSON objects. *)
Definition sample_json_dumps (c : string) : string := "{" +:+ c.

Definition sample_settings : ServerSettings :=
  {| api_key := None; interrupt_requests := true |}.

Definition sample_session : session :=
  {| gate := mkLocks false true; exit_stack := [entered]; exited := [];
     closes := 0; sent := []; pulled := 0 |}.

Lemma sample_json_dumps_not_DONE c : sample_json_dumps c ≠ "[DONE]".
Proof. unfold sample_json_dumps. simpl. discriminate. Qed.

Lemma publisher_interrupts_on_contention_witness :
  ∃ s1,
    get_event_publisher sample_json_dumps (Some sample_settings)
      {| is_disconnected := λ _, false; outer_taken := λ j, bool_decide (j = 1) |}
      (handler_iterator "a" ["b"; "c"] StopIteration) (Some exit_stack_close)
      sample_session
    = (exit_stack_close s1, Cancelled)
    ∧ sent s1 = [ {| data := "{a" |}; {| data := "{b" |}; {| data := "[DONE]" |} ]
    ∧ pulled s1 = 2.
Proof.
  destruct (publisher_interrupts_on_contention sample_json_dumps
              sample_json_dumps_not_DONE sample_settings
              {| is_disconnected := λ _, false; outer_taken := λ j, bool_decide (j = 1) |}
              (handler_iterator "a" ["b"; "c"] StopIteration) (Some exit_stack_close)
              sample_session ["a"] "b" ["c"])
    as (s1 & H1 & H2 & _ & H3 & _).
  - reflexivity.
  - reflexivity.
  - intros [|j] Hj; [done | simpl in Hj; lia].
  - reflexivity.
  - reflexivity.
  - exists s1. split_and!; [exact H1 | exact H2 | exact H3].
Defined.

Lemma publisher_aborts_on_disconnect_witness :
  ∃ s1,
    get_event_publisher sample_json_dumps (Some sample_settings)
      {| is_disconnected := λ j, bool_decide (j = 1); outer_taken := λ _, false |}
      (handler_iterator "a" ["b"; "c"] StopIteration) (Some exit_stack_close)
      sample_session
    = (exit_stack_close s1, Cancelled)
    ∧ sent s1 = [ {| data := "{a" |}; {| data := "{b" |} ]
    ∧ pulled s1 = 2.
Proof.
  destruct (publisher_aborts_on_disconnect sample_json_dumps
              sample_json_dumps_not_DONE (Some sample_settings)
              {| is_disconnected := λ j, bool_decide (j = 1); outer_taken := λ _, false |}
              (handler_iterator "a" ["b"; "c"] StopIteration) (Some exit_stack_close)
              sample_session ["a"] "b" ["c"])
    as (s1 & H1 & H2 & _ & H3 & _).
  - reflexivity.
  - intros [|j] Hj; [done | simpl in Hj; lia].
  - reflexivity.
  - exists s1. split_and!; [exact H1 | exact H2 | exact H3].
Defined.

Lemma stream_cleanup_exactly_once_witness :
  open_session (mkLocks false false) = Some sample_session
  ∧ ∃ s' out f',
      stream_response sample_json_dumps (Some sample_settings)
        {| is_disconnected := λ _, false; outer_taken := λ _, false |}
        "a" ["b"] StopIteration sample_session = (s', out)
      ∧ exited s' = [f'] ∧ occurrences ReleaseInner (trace f') = 1.
Proof.
  split; [reflexivity|].
  destruct (stream_cleanup_exactly_once sample_json_dumps (Some sample_settings)
              {| is_disconnected := λ _, false; outer_taken := λ _, false |}
              "a" ["b"] StopIteration (mkLocks false false) sample_session eq_refl)
    as (s' & out & f' & H1 & _ & H2 & _ & _ & H3 & _).
  exists s', out, f'. split_and!; [exact H1 | exact H2 | exact H3].
Defined.

End PublisherFacts.

(** ** Request shaping *)

Module ShapingFacts.
Import Py Shaping.

#[local] Set Warnings "-clear-no-such-hyp".

(** *** Insertion-ordered dictionaries *)

Lemma dict_get_set {A} (k k' : string) (v : A) d :
  dict_get k (dict_set k' v d) = if decide (k' = k) then Some v else dict_get k d.
Proof.
  induction d as [|[k0 v0] d IH]; simpl.
  - repeat case_decide; congruence.
  - destruct (decide (k0 = k')) as [->|Hne]; simpl.
    + repeat case_decide; congruence.
    + rewrite IH. repeat case_decide; congruence.
Qed.

(** *** [_logit_bias_tokens_to_input_ids] *)

(** Key [k] is the text of one of the token ids of [token]. *)
Definition yields (llama : Llama) (k : string) (token : string) : Prop :=
  k ∈ str <$> tokenize llama (encode_utf8 token) false true.

(** The loop body of lines 203-204 and the loop of lines 201-204, started
    from any dictionary. *)
Definition bias_ids {A} (score : A) (ids : list Z) (to_bias : list (string * A)) :=
  foldl (λ to_bias input_id, dict_set (str input_id) score to_bias) to_bias ids.

Definition bias_items {A} (llama : Llama) (items to_bias : list (string * A)) :=
  foldl (λ to_bias '(token, score),
           bias_ids score (tokenize llama (encode_utf8 token) false true) to_bias)
        to_bias items.

Lemma dict_get_bias_ids {A} k (score : A) ids d :
  dict_get k (bias_ids score ids d)
  = if decide (k ∈ str <$> ids) then Some score else dict_get k d.
Proof.
  revert d. induction ids as [|i ids IH]; intros d.
  - rewrite decide_False; [done | apply not_elem_of_nil].
  - unfold bias_ids in *. rewrite fmap_cons. cbn [foldl]. rewrite IH, dict_get_set.
    destruct (decide (k ∈ str <$> ids)) as [Hin|Hin].
    + rewrite decide_True; [done | by right].
    + destruct (decide (str i = k)) as [<-|Hne].
      * rewrite decide_True; [done | by left].
      * rewrite decide_False; [done|]. intros [?|?]%elem_of_cons; congruence.
Qed.

Lemma dict_get_bias_items_skip {A} llama k (post d : list (string * A)) :
  (∀ token score, (token, score) ∈ post → ¬ yields llama k token) →
  dict_get k (bias_items llama post d) = dict_get k d.
Proof.
  revert d. induction post as [|[t s] post IH]; intros d H; simpl; [done|].
  unfold bias_items in *. simpl. rewrite IH.
  - fold (bias_ids s (tokenize llama (encode_utf8 t) false true) d).
    rewrite dict_get_bias_ids. case_decide as Hk; [|done].
    exfalso. eapply (H t s); [left | exact Hk].
  - intros t' s' Hin. apply (H t' s'). by right.
Qed.

Lemma dict_get_bias_items_last {A} llama k pre token (score : A) post d :
  yields llama k token →
  (∀ token' score', (token', score') ∈ post → ¬ yields llama k token') →
  dict_get k (bias_items llama (pre ++ (token, score) :: post) d) = Some score.
Proof.
  intros Hk Hpost. unfold bias_items. rewrite foldl_app. simpl.
  fold (bias_items llama pre d).
  fold (bias_ids score (tokenize llama (encode_utf8 token) false true)
          (bias_items llama pre d)).
  fold (bias_items llama post
          (bias_ids score (tokenize llama (encode_utf8 token) false true)
             (bias_items llama pre d))).
  rewrite dict_get_bias_items_skip by done.
  rewrite dict_get_bias_ids. by rewrite decide_True.
Qed.

Lemma dict_get_bias_items_None {A} llama k (items d : list (string * A)) :
  dict_get k (bias_items llama items d) = None
  ↔ dict_get k d = None
    ∧ ∀ token score, (token, score) ∈ items → ¬ yields llama k token.
Proof.
  revert d. induction items as [|[t s] items IH]; intros d.
  - simpl. split; [|by intros []]. intros H. split; [done|].
    intros ?? Hin. by apply elem_of_nil in Hin.
  - unfold bias_items in *. cbn [foldl].
    fold (bias_ids s (tokenize llama (encode_utf8 t) false true) d).
    rewrite IH, dict_get_bias_ids. split.
    + intros [Hd Hitems]. case_decide as Hk; [done|]. split; [done|].
      intros t' s' [?|?]%elem_of_cons; [by simplify_eq | by eapply Hitems].
    + intros [Hd Hitems]. split.
      * rewrite decide_False; [done|]. apply (Hitems t s). by left.
      * intros t' s' Hin. apply (Hitems t' s'). by right.
Qed.

Lemma logit_bias_tokens_unfold {A} llama (d : list (string * A)) :
  _logit_bias_tokens_to_input_ids llama d = bias_items llama d [].
Proof. reflexivity. Qed.

(** *** The handlers *)

Lemma bind_Ok {A B} (m : result A) (k : A → result B) b :
  m ≫= k = Ok b → ∃ a, m = Ok a ∧ k a = Ok b.
Proof. destruct m as [a|e]; [by exists a | done]. Qed.

Lemma getattr_Ok body name v : getattr body name = Ok v ↔ body !! name = Some v.
Proof. unfold getattr. destruct (body !! name); split; congruence. Qed.

Lemma model_dump_lookup exclude (body : gmap string pyval) k :
  model_dump exclude body !! k = if decide (k ∈ exclude) then None else body !! k.
Proof.
  unfold model_dump. rewrite map_lookup_filter.
  destruct (body !! k) as [v|]; simpl; [|by case_decide].
  case_guard; case_decide; simpl in *; done.
Qed.

(** Lines 287-289 as a function of the prompt. *)
Definition unwrap_prompt (prompt : pyval) : pyval :=
  match prompt with
  | VList (p :: _) => p
  | VList [] => VStr ""
  | _ => prompt
  end.

Definition transformed : gset string := {[ "logit_bias"; "grammar"; "logits_processor" ]}.

Section Handlers.
Variable from_string : string → result pyval.

Lemma set_logit_bias_other llama body kw kw' k :
  set_logit_bias llama body kw = Ok kw' → k ≠ "logit_bias" → kw' !! k = kw !! k.
Proof.
  unfold set_logit_bias. intros (v & Hv & H)%bind_Ok Hk.
  destruct v; simplify_eq/=; try done;
    apply bind_Ok in H as (ty & Hty & H);
    destruct (is_str ty "tokens"); simplify_eq/=;
    by rewrite lookup_insert_ne.
Qed.

Lemma set_logit_bias_value llama body kw kw' v ty :
  set_logit_bias llama body kw = Ok kw' →
  body !! "logit_bias" = Some v → v ≠ VNone →
  body !! "logit_bias_type" = Some ty →
  if is_str ty "tokens"
  then ∃ d, v = VDict d
            ∧ kw' !! "logit_bias" = Some (VDict (_logit_bias_tokens_to_input_ids llama d))
  else kw' !! "logit_bias" = Some v.
Proof.
  unfold set_logit_bias. intros (v' & Hv%getattr_Ok & H)%bind_Ok Hb Hne Hty.
  rewrite Hb in Hv. injection Hv as <-.
  destruct v; try done;
    apply bind_Ok in H as (ty' & Hty'%getattr_Ok & H);
    rewrite Hty in Hty'; injection Hty' as <-;
    destruct (is_str ty "tokens"); simplify_eq/=;
    try (by rewrite lookup_insert_eq).
  eexists. split; [done|]. by rewrite lookup_insert_eq.
Qed.

Lemma set_grammar_other body kw kw' k :
  set_grammar from_string body kw = Ok kw' → k ≠ "grammar" → kw' !! k = kw !! k.
Proof.
  unfold set_grammar. intros (v & Hv & H)%bind_Ok Hk.
  destruct v; simplify_eq/=; try done.
  apply bind_Ok in H as (g' & Hg & H). simplify_eq/=. by rewrite lookup_insert_ne.
Qed.

Lemma set_min_tokens_other llama body kw kw' k :
  set_min_tokens llama body kw = Ok kw' → k ≠ "logits_processor" → kw' !! k = kw !! k.
Proof.
  unfold set_min_tokens. intros (v & Hv & H)%bind_Ok Hk.
  destruct v; simplify_eq/=; try done.
  case_bool_decide; simplify_eq/=; [|done].
  destruct (kw !! "logits_processor") as [[]|]; simplify_eq/=;
    by rewrite lookup_insert_ne.
Qed.

(** The three steps the handlers share, lines 306-323 and 536-553. *)
Definition shape_kwargs (llama : Llama) (body kw : gmap string pyval)
  : result (gmap string pyval) :=
  kw ← set_logit_bias llama body kw;
  kw ← set_grammar from_string body kw;
  set_min_tokens llama body kw.

Lemma shape_kwargs_other llama body kw kw' k :
  shape_kwargs llama body kw = Ok kw' → k ∉ transformed → kw' !! k = kw !! k.
Proof.
  unfold shape_kwargs, transformed.
  intros (kw1 & H1 & (kw2 & H2 & H3)%bind_Ok)%bind_Ok Hk.
  rewrite (set_min_tokens_other _ _ _ _ k H3) by set_solver.
  rewrite (set_grammar_other _ _ _ k H2) by set_solver.
  rewrite (set_logit_bias_other _ _ _ _ k H1) by set_solver. done.
Qed.

Lemma shape_kwargs_logit_bias llama body kw kw' :
  shape_kwargs llama body kw = Ok kw' →
  ∃ kw1, set_logit_bias llama body kw = Ok kw1
         ∧ kw' !! "logit_bias" = kw1 !! "logit_bias".
Proof.
  unfold shape_kwargs.
  intros (kw1 & H1 & (kw2 & H2 & H3)%bind_Ok)%bind_Ok.
  exists kw1. split; [done|].
  rewrite (set_min_tokens_other _ _ _ _ "logit_bias" H3) by done.
  by rewrite (set_grammar_other _ _ _ "logit_bias" H2).
Qed.

(** The body after lines 287-289. *)
Definition normalized (body : gmap string pyval) : gmap string pyval :=
  match body !! "prompt" with
  | Some (VList l) => <["prompt" := unwrap_prompt (VList l)]> body
  | _ => body
  end.

Lemma normalized_other body k : k ≠ "prompt" → normalized body !! k = body !! k.
Proof.
  intros Hk. unfold normalized.
  destruct (body !! "prompt") as [[]|]; try done. by rewrite lookup_insert_ne.
Qed.

Lemma normalized_prompt body :
  normalized body !! "prompt" = unwrap_prompt <$> body !! "prompt".
Proof.
  unfold normalized.
  destruct (body !! "prompt") as [[]|] eqn:H; rewrite ?H; try done.
  by rewrite lookup_insert_eq.
Qed.

Lemma create_completion_Ok path llama_proxy body inv :
  create_completion from_string path llama_proxy body = Ok inv →
  ∃ proxy prompt,
    llama_proxy = Some proxy
    ∧ body !! "prompt" = Some prompt
    ∧ (∀ l, prompt = VList l → length l ≤ 1)
    ∧ shape_kwargs (engine inv) (normalized body)
        (model_dump completion_exclude (normalized body)) = Ok (kwargs inv).
Proof.
  unfold create_completion. intros (proxy & Hp & H)%bind_Ok.
  destruct llama_proxy as [p|]; simplify_eq/=.
  apply bind_Ok in H as (prompt & Hprompt%getattr_Ok & H).
  apply bind_Ok in H as (body' & Hbody & H).
  apply bind_Ok in H as (name & Hname & H).
  apply bind_Ok in H as (kw1 & H1 & H).
  apply bind_Ok in H as (kw2 & H2 & H).
  apply bind_Ok in H as (kw3 & H3 & H). simplify_eq/=.
  exists proxy, prompt.
  assert (body' = normalized body ∧ ∀ l, prompt = VList l → length l ≤ 1) as [-> Hlen].
  { unfold normalized. rewrite Hprompt.
    destruct prompt; simplify_eq/=; try done.
    destruct (bool_decide (length l ≤ 1)) eqn:Hl; simplify_eq/=.
    apply bool_decide_eq_true in Hl. split; [done|].
    intros l0 Heq. by simplify_eq. }
  split_and!; try done.
  unfold shape_kwargs. rewrite H1. simpl. rewrite H2. simpl. done.
Qed.

Lemma create_chat_completion_Ok llama_proxy body inv :
  create_chat_completion from_string llama_proxy body = Ok inv →
  ∃ proxy,
    llama_proxy = Some proxy
    ∧ shape_kwargs (engine inv) body (model_dump chat_exclude body) = Ok (kwargs inv).
Proof.
  unfold create_chat_completion. intros (proxy & Hp & H)%bind_Ok.
  destruct llama_proxy as [p|]; simplify_eq/=.
  apply bind_Ok in H as (name & Hname & H).
  apply bind_Ok in H as (kw1 & H1 & H).
  apply bind_Ok in H as (kw2 & H2 & H).
  apply bind_Ok in H as (kw3 & H3 & H). simplify_eq/=.
  exists proxy. split; [done|].
  unfold shape_kwargs. rewrite H1. simpl. rewrite H2. simpl. done.
Qed.

(** The two generation endpoints. *)
Inductive endpoint : Type :=
  | Completion (path : string)    (* create_completion, reached through [path] *)
  | ChatCompletion.               (* create_chat_completion *)

Definition handle (ep : endpoint) (llama_proxy : option LlamaProxy)
    (body : gmap string pyval) : result invocation :=
  match ep with
  | Completion path => create_completion from_string path llama_proxy body
  | ChatCompletion => create_chat_completion from_string llama_proxy body
  end.

Definition excluded (ep : endpoint) : gset string :=
  match ep with
  | Completion _ => completion_exclude
  | ChatCompletion => chat_exclude
  end.

(** The body the shaping steps read: [create_completion] has rewritten the
    prompt by then. *)
Definition shaped_body (ep : endpoint) (body : gmap string pyval) : gmap string pyval :=
  match ep with
  | Completion _ => normalized body
  | ChatCompletion => body
  end.

Lemma handle_Ok ep llama_proxy body inv :
  handle ep llama_proxy body = Ok inv →
  shape_kwargs (engine inv) (shaped_body ep body)
    (model_dump (excluded ep) (shaped_body ep body)) = Ok (kwargs inv).
Proof.
  destruct ep as [path|]; simpl.
  - by intros (? & ? & _ & _ & _ & H)%create_completion_Ok.
  - by intros (? & _ & H)%create_chat_completion_Ok.
Qed.

Lemma completion_prompt_passed path llama_proxy body inv :
  create_completion from_string path llama_proxy body = Ok inv →
  kwargs inv !! "prompt" = unwrap_prompt <$> body !! "prompt".
Proof.
  intros H. apply (handle_Ok (Completion path)) in H. simpl in H.
  rewrite (shape_kwargs_other _ _ _ _ "prompt" H) by (unfold transformed; set_solver).
  rewrite model_dump_lookup, decide_False by set_solver.
  apply normalized_prompt.
Qed.

(** C7.  When a completion or chat-completion request with a non-null
    [logit_bias] reaches the engine: if [logit_bias_type] is ["tokens"], the
    [logit_bias] keyword is the dictionary built by
    [_logit_bias_tokens_to_input_ids]: it has a key exactly for the text of
    every token id that tokenizing some key of the request's map (its UTF-8
    bytes, [add_bos=False], [special=True]) gives, and the value at such a
    key is the score of the last request key (in the map's order) that gives
    this token id; otherwise the request's map is passed as it is. *)
Theorem logit_bias_passed_to_engine (ep : endpoint) (llama_proxy : option LlamaProxy)
    (body : gmap string pyval) (inv : invocation) (v ty : pyval) :
  handle ep llama_proxy body = Ok inv →
  body !! "logit_bias" = Some v →
  v ≠ VNone →
  body !! "logit_bias_type" = Some ty →
  if is_str ty "tokens"
  then ∃ d to_bias,
         v = VDict d
         ∧ kwargs inv !! "logit_bias" = Some (VDict to_bias)
         ∧ to_bias = _logit_bias_tokens_to_input_ids (engine inv) d
         ∧ (∀ k, dict_get k to_bias = None
                 ↔ ∀ token score, (token, score) ∈ d → ¬ yields (engine inv) k token)
         ∧ (∀ k pre token score post,
              d = pre ++ (token, score) :: post →
              yields (engine inv) k token →
              (∀ token' score', (token', score') ∈ post → ¬ yields (engine inv) k token') →
              dict_get k to_bias = Some score)
  else kwargs inv !! "logit_bias" = Some v.
Proof.
  intros H%handle_Ok Hv Hne Hty.
  apply shape_kwargs_logit_bias in H as (kw1 & H1 & ->).
  assert (shaped_body ep body !! "logit_bias" = Some v) as Hv'.
  { destruct ep; simpl; [by rewrite normalized_other | done]. }
  assert (shaped_body ep body !! "logit_bias_type" = Some ty) as Hty'.
  { destruct ep; simpl; [by rewrite normalized_other | done]. }
  pose proof (set_logit_bias_value _ _ _ _ _ _ H1 Hv' Hne Hty') as Hval.
  destruct (is_str ty "tokens"); [|done].
  destruct Hval as (d & -> & Hkw).
  exists d, (_logit_bias_tokens_to_input_ids (engine inv) d).
  split_and!; try done.
  - intros k. rewrite logit_bias_tokens_unfold, dict_get_bias_items_None. naive_solver.
  - intros k pre token score post -> Hk Hpost.
    rewrite logit_bias_tokens_unfold. by apply dict_get_bias_items_last.
Qed.

(** C9, as amended.  When a request reaches the engine, no keyword argument
    carries an excluded field name ([n], [logit_bias_type], [user],
    [min_tokens], and [best_of] for text completion); every other field,
    apart from [logit_bias], [grammar], [logits_processor] and, for text
    completion, [prompt], is passed with the value the request has; and text
    completion passes the prompt unwrapped from its list. *)
Theorem request_fields_passed_to_engine (ep : endpoint)
    (llama_proxy : option LlamaProxy) (body : gmap string pyval) (inv : invocation)
    (k : string) :
  handle ep llama_proxy body = Ok inv →
  (k ∈ excluded ep → kwargs inv !! k = None)
  ∧ (k ∉ excluded ep → k ∉ transformed →
     (∀ path, ep = Completion path → k ≠ "prompt") →
     kwargs inv !! k = body !! k)
  ∧ (∀ path, ep = Completion path →
     kwargs inv !! "prompt" = unwrap_prompt <$> body !! "prompt").
Proof.
  intros H0. pose proof (handle_Ok _ _ _ _ H0) as H. split_and!.
  - intros Hk. rewrite (shape_kwargs_other _ _ _ _ k H).
    + rewrite model_dump_lookup. by rewrite decide_True.
    + destruct ep; simpl in Hk; unfold transformed; set_solver.
  - intros Hk Ht Hp. rewrite (shape_kwargs_other _ _ _ _ k H) by done.
    rewrite model_dump_lookup, decide_False by done.
    destruct ep as [path|]; simpl; [|done].
    apply normalized_other. by eapply Hp.
  - intros path ->. by eapply completion_prompt_passed.
Qed.

(** The fields the shaping steps read have the types the request classes
    declare, and the grammar (if any) compiles. *)
Definition well_typed (body : gmap string pyval) : Prop :=
  is_Some (body !! "model")
  ∧ (body !! "logit_bias" = Some VNone
     ∨ ∃ d, body !! "logit_bias" = Some (VDict d)
            ∧ is_Some (body !! "logit_bias_type"))
  ∧ (body !! "grammar" = Some VNone
     ∨ ∃ g, body !! "grammar" = Some (VStr g) ∧ raised (from_string g) = false)
  ∧ ∃ n, body !! "min_tokens" = Some (VInt n)
         ∧ ((0 < n)%Z →
            body !! "logits_processor" = None
            ∨ ∃ l, body !! "logits_processor" = Some (VList l)).

Lemma set_logit_bias_total llama body kw :
  body !! "logit_bias" = Some VNone
  ∨ (∃ d, body !! "logit_bias" = Some (VDict d) ∧ is_Some (body !! "logit_bias_type")) →
  ∃ kw', set_logit_bias llama body kw = Ok kw'.
Proof.
  unfold set_logit_bias, getattr. intros [H|(d & H & [ty Hty])]; rewrite H; simpl.
  - by eexists.
  - rewrite Hty. simpl. destruct (is_str ty "tokens"); by eexists.
Qed.

Lemma set_grammar_total body kw :
  body !! "grammar" = Some VNone
  ∨ (∃ g, body !! "grammar" = Some (VStr g) ∧ raised (from_string g) = false) →
  ∃ kw', set_grammar from_string body kw = Ok kw'.
Proof.
  unfold set_grammar, getattr. intros [H|(g & H & Hg)]; rewrite H; simpl.
  - by eexists.
  - destruct (from_string g); [by eexists | done].
Qed.

Lemma set_min_tokens_total llama body kw n :
  body !! "min_tokens" = Some (VInt n) →
  ((0 < n)%Z →
   kw !! "logits_processor" = None ∨ ∃ l, kw !! "logits_processor" = Some (VList l)) →
  ∃ kw', set_min_tokens llama body kw = Ok kw'.
Proof.
  unfold set_min_tokens, getattr. intros -> H. simpl.
  case_bool_decide as Hn; [|by eexists].
  destruct (H Hn) as [->|[l ->]]; by eexists.
Qed.

Lemma shape_kwargs_total llama body exclude :
  well_typed body → "logits_processor" ∉ exclude →
  ∃ kw, shape_kwargs llama body (model_dump exclude body) = Ok kw.
Proof.
  intros (_ & Hb & Hg & n & Hn & Hl) Hex. unfold shape_kwargs.
  destruct (set_logit_bias_total llama body (model_dump exclude body) Hb) as [kw1 H1].
  rewrite H1. simpl.
  destruct (set_grammar_total body kw1 Hg) as [kw2 H2]. rewrite H2. simpl.
  apply (set_min_tokens_total _ _ _ n Hn).
  rewrite (set_grammar_other _ _ _ "logits_processor" H2) by done.
  rewrite (set_logit_bias_other _ _ _ _ "logits_processor" H1) by done.
  by rewrite model_dump_lookup, decide_False.
Qed.

Lemma well_typed_normalized body : well_typed body → well_typed (normalized body).
Proof. unfold well_typed. by rewrite !normalized_other. Qed.

Lemma create_completion_accepts path proxy body prompt :
  body !! "prompt" = Some prompt →
  (∀ l, prompt = VList l → length l ≤ 1) →
  well_typed body →
  ∃ inv, create_completion from_string path (Some proxy) body = Ok inv.
Proof.
  intros Hp Hlen Hwt. unfold create_completion. simpl.
  rewrite (proj2 (getattr_Ok body "prompt" prompt) Hp). simpl.
  assert (match prompt with
          | VList l =>
              if bool_decide (length l ≤ 1)
              then Ok (<["prompt" := match l with p :: _ => p | [] => VStr "" end]> body)
              else Raise AssertionError
          | _ => Ok body
          end = Ok (normalized body)) as ->.
  { unfold normalized. rewrite Hp. destruct prompt; try done.
    by rewrite bool_decide_eq_true_2 by eauto. }
  simpl. apply well_typed_normalized in Hwt.
  assert (∃ name, (if bool_decide (path ≠ copilot_path)
                   then getattr (normalized body) "model"
                   else Ok (VStr "copilot-codex")) = Ok name) as [name ->].
  { destruct Hwt as ([m Hm] & _). case_bool_decide; [|by eexists].
    exists m. by apply getattr_Ok. }
  simpl.
  destruct (shape_kwargs_total (proxy_call proxy name) _ completion_exclude Hwt)
    as [kw Hkw]; [unfold completion_exclude; set_solver|].
  unfold shape_kwargs in Hkw.
  destruct (set_logit_bias _ _ _) as [kw1|]; [simpl in *|done].
  destruct (set_grammar _ _ _) as [kw2|]; [simpl in *|done].
  rewrite Hkw. simpl. by eexists.
Qed.

(** C10.  A text-completion request whose prompt is a list: with more than
    one element the assertion of line 288 fails; with at most one element
    (and the other fields well typed) the request reaches the engine; and
    whenever it reaches the engine the list has at most one element and the
    prompt passed is that element, or the empty string for the empty
    list. *)
Theorem prompt_list_unwrapped (path : string) (llama_proxy : option LlamaProxy)
    (body : gmap string pyval) (l : list pyval) :
  body !! "prompt" = Some (VList l) →
  (∀ proxy, llama_proxy = Some proxy → 1 < length l →
     create_completion from_string path llama_proxy body = Raise AssertionError)
  ∧ (∀ proxy, llama_proxy = Some proxy → length l ≤ 1 → well_typed body →
     ∃ inv, create_completion from_string path llama_proxy body = Ok inv)
  ∧ (∀ inv, create_completion from_string path llama_proxy body = Ok inv →
       length l ≤ 1
       ∧ kwargs inv !! "prompt"
         = Some (match l with p :: _ => p | [] => VStr "" end)).
Proof.
  intros Hprompt. split_and!.
  - intros proxy -> Hlen. unfold create_completion. simpl.
    rewrite (proj2 (getattr_Ok body "prompt" (VList l)) Hprompt). simpl.
    rewrite (bool_decide_eq_false_2 (length l ≤ 1)) by lia. done.
  - intros proxy -> Hlen Hwt.
    eapply create_completion_accepts; [exact Hprompt | | exact Hwt].
    intros l' Heq. by simplify_eq.
  - intros inv H.
    pose proof (create_completion_Ok _ _ _ _ H) as (proxy & prompt & _ & Hp & Hlen & _).
    rewrite Hprompt in Hp. injection Hp as <-. split; [by apply Hlen|].
    rewrite (completion_prompt_passed _ _ _ _ H), Hprompt. by destruct l.
Qed.

End Handlers.

(** *** A sample request *)

(** An engine whose tokenizer gives one token per byte. *)
Definition sample_llama : Llama :=
  {| model_path := "models/7B/ggml-model.bin"; lora_path := None;
     tokenize := λ bytes _ _, (λ b, Z.of_N (Byte.to_N b)) <$> bytes;
     token_eos := 2 |}.

Definition sample_proxy : LlamaProxy :=
  {| _current_model := Some sample_llama; proxy_call := λ _, sample_llama |}.

Definition sample_from_string (g : string) : result pyval := Ok (VGrammar g).

Definition one_and_a_half : pyval := VFloat 0x3FF8000000000000.   (* 1.5 *)
Definition two : pyval := VFloat 0x4000000000000000.              (* 2.0 *)

Definition sample_body : gmap string pyval :=
  list_to_map
    [ ("prompt", VList [VStr "hi"]); ("model", VNone); ("max_tokens", VInt 16);
      ("n", VInt 1); ("best_of", VInt 1); ("user", VNone);
      ("logit_bias", VDict [("a", one_and_a_half); ("ab", two)]);
      ("logit_bias_type", VStr "tokens");
      ("grammar", VNone); ("min_tokens", VInt 0) ].

Definition sample_invocation : invocation :=
  match create_completion sample_from_string "/v1/completions" (Some sample_proxy)
          sample_body with
  | Ok inv => inv
  | Raise _ => {| engine := sample_llama; kwargs := ∅ |}
  end.

Lemma sample_request_accepted :
  create_completion sample_from_string "/v1/completions" (Some sample_proxy) sample_body
  = Ok sample_invocation.
Proof. vm_compute. reflexivity. Qed.

Lemma logit_bias_passed_to_engine_witness :
  kwargs sample_invocation !! "logit_bias"
  = Some (VDict [("97", two); ("98", two)]).
Proof.
  pose proof (logit_bias_passed_to_engine sample_from_string
                (Completion "/v1/completions") (Some sample_proxy) sample_body
                sample_invocation
                (VDict [("a", one_and_a_half); ("ab", two)]) (VStr "tokens")
                sample_request_accepted eq_refl ltac:(discriminate) eq_refl) as H.
  simpl in H. destruct H as (d & to_bias & Hd & Hkw & Hto & _).
  injection Hd as <-. rewrite Hkw, Hto. vm_compute. reflexivity.
Defined.

(** C9 as stated fails for text completion: the request below has the prompt
    [["hi"]], and [prompt] is neither excluded nor the target of the
    logit-bias, grammar or min-tokens steps, yet the engine is called with
    the prompt ["hi"]. *)
Lemma create_completion_rewrites_prompt :
  create_completion sample_from_string "/v1/completions" (Some sample_proxy) sample_body
  = Ok sample_invocation
  ∧ ("prompt" ∉ completion_exclude)
  ∧ ("prompt" ∉ transformed)
  ∧ sample_body !! "prompt" = Some (VList [VStr "hi"])
  ∧ kwargs sample_invocation !! "prompt" = Some (VStr "hi").
Proof.
  split_and!.
  - exact sample_request_accepted.
  - unfold completion_exclude. set_solver.
  - unfold transformed. set_solver.
  - vm_compute. reflexivity.
  - vm_compute. reflexivity.
Qed.

Lemma request_fields_passed_to_engine_witness :
  kwargs sample_invocation !! "best_of" = None
  ∧ kwargs sample_invocation !! "max_tokens" = Some (VInt 16).
Proof.
  split.
  - apply (request_fields_passed_to_engine sample_from_string
             (Completion "/v1/completions") (Some sample_proxy) sample_body
             sample_invocation "best_of" sample_request_accepted).
    simpl. unfold completion_exclude. set_solver.
  - destruct (request_fields_passed_to_engine sample_from_string
                (Completion "/v1/completions") (Some sample_proxy) sample_body
                sample_invocation "max_tokens" sample_request_accepted)
      as (_ & H & _).
    rewrite H.
    + vm_compute. reflexivity.
    + simpl. unfold completion_exclude. set_solver.
    + unfold transformed. set_solver.
    + intros path _. discriminate.
Defined.

Lemma prompt_list_unwrapped_witness :
  kwargs sample_invocation !! "prompt" = Some (VStr "hi").
Proof.
  destruct (prompt_list_unwrapped sample_from_string "/v1/completions"
              (Some sample_proxy) sample_body [VStr "hi"] eq_refl) as (_ & _ & H).
  destruct (H sample_invocation sample_request_accepted) as [_ Hp]. exact Hp.
Defined.

End ShapingFacts.

(** ** Authentication *)

Module AuthFacts.
Import Py Auth.

Definition unauthorized : error := HTTPException 401 "Invalid API key".

Lemma authenticate_no_key settings authorization :
  api_key settings = None → authenticate settings authorization = Ok (VBool true).
Proof. unfold authenticate. by intros ->. Qed.

Lemma authenticate_key settings authorization key :
  api_key settings = Some key →
  authenticate settings authorization
  = if bool_decide (credentials <$> authorization = Some key)
    then Ok (VStr key) else Raise unauthorized.
Proof.
  unfold authenticate. intros ->. destruct authorization as [a|]; simpl; [|done].
  destruct (decide (credentials a = key)) as [->|Hne].
  - by rewrite !bool_decide_eq_true_2.
  - rewrite !bool_decide_eq_false_2; [done | congruence | done].
Qed.

Lemma every_route_requires_auth r : r ∈ router → requires_auth r = true.
Proof.
  unfold router. rewrite !elem_of_cons, elem_of_nil.
  intros H. repeat destruct H as [->|H]; try done.
Qed.

Definition info_route : route :=
  mkRoute "GET" introspection_path [Depends_authenticate] "info".

Lemma info_route_registered : info_route ∈ router.
Proof. unfold router. rewrite !elem_of_cons. do 8 right. by left. Qed.

(** C6 as stated fails on its last part: the introspection route lists the
    [authenticate] dependency like every other route, so with an API key
    configured a request to it without credentials is answered 401. *)
Lemma introspection_requires_authentication :
  info_route ∈ router
  ∧ path info_route = "/v1/internal/model/info"
  ∧ requires_auth info_route = true
  ∧ solve_dependencies info_route
      {| api_key := Some "secret"; interrupt_requests := false |} None
    = Raise (HTTPException 401 "Invalid API key").
Proof.
  split_and!; [|reflexivity|reflexivity|reflexivity].
  unfold router. rewrite !elem_of_cons. do 8 right. by left.
Qed.

(** C6, as amended.  On every route of the router, the introspection route
    included: without a configured API key every request passes; with a
    configured key a request passes if and only if it carries bearer
    credentials equal to the key, and is otherwise answered with HTTP 401. *)
Theorem authentication_on_every_route (r : route) (settings : ServerSettings)
    (authorization : option HTTPAuthorizationCredentials) :
  r ∈ router →
  requires_auth r = true
  ∧ (api_key settings = None →
     authenticate settings authorization = Ok (VBool true)
     ∧ solve_dependencies r settings authorization = Ok tt)
  ∧ (∀ key, api_key settings = Some key →
       (solve_dependencies r settings authorization = Ok tt
        ↔ credentials <$> authorization = Some key)
       ∧ (credentials <$> authorization = Some key →
          authenticate settings authorization = Ok (VStr key))
       ∧ (credentials <$> authorization ≠ Some key →
          authenticate settings authorization = Raise (HTTPException 401 "Invalid API key")
          ∧ solve_dependencies r settings authorization
            = Raise (HTTPException 401 "Invalid API key"))).
Proof.
  intros Hr%every_route_requires_auth. split; [done|].
  unfold solve_dependencies. rewrite Hr. split.
  - intros Hk. by rewrite (authenticate_no_key _ _ Hk).
  - intros key Hk. rewrite (authenticate_key _ _ _ Hk).
    case_bool_decide as Hc; simpl; split_and!; done.
Qed.

Lemma authentication_on_every_route_witness :
  solve_dependencies info_route
    {| api_key := Some "secret"; interrupt_requests := false |}
    (Some {| scheme := "Bearer"; credentials := "secret" |}) = Ok tt.
Proof.
  destruct (authentication_on_every_route info_route
              {| api_key := Some "secret"; interrupt_requests := false |}
              (Some {| scheme := "Bearer"; credentials := "secret" |})
              info_route_registered) as (_ & _ & H).
  destruct (H "secret" eq_refl) as (Hiff & _ & _). by apply Hiff.
Defined.

End AuthFacts.

(** ** Model resolution and introspection *)

Module RegistryFacts.
Import Py Registry.

(** An entry the embedding request can be served by. *)
Definition serves (request_model : option string) (m : ModelSettings) : Prop :=
  embedding m = true
  ∧ (request_model = None
     ∨ request_model = Some (model m)
     ∨ request_model = model_alias m).

Global Instance serves_dec request_model m : Decision (serves request_model m).
Proof. unfold serves. apply _. Defined.

Lemma select_setting_first request_model settings :
  select_setting request_model settings
  = snd <$> list_find (serves request_model) settings.
Proof.
  induction settings as [|m settings IH]; [done|].
  cbn [select_setting list_find].
  destruct (decide (serves request_model m)) as [[He Hd]|Hs]; simpl.
  - rewrite He, andb_true_r. simpl.
    destruct (decide (request_model = None)) as [Hn|Hn].
    + by rewrite (bool_decide_eq_true_2 _ Hn).
    + rewrite (bool_decide_eq_false_2 _ Hn).
      destruct Hd as [?|[Hm|Ha]]; [done| |].
      * by rewrite (bool_decide_eq_true_2 _ Hm).
      * rewrite (bool_decide_eq_true_2 _ Ha). by rewrite orb_true_r.
  - assert (bool_decide (request_model = None) && embedding m = false) as ->.
    { apply andb_false_iff. destruct (embedding m) eqn:He; [left|by right].
      apply bool_decide_eq_false_2. intros ?. apply Hs. split; auto. }
    assert (embedding m
            && (bool_decide (request_model = Some (model m))
                || bool_decide (request_model = model_alias m)) = false) as ->.
    { destruct (embedding m) eqn:He; [simpl|done].
      apply orb_false_iff. split; apply bool_decide_eq_false_2;
        intros ?; apply Hs; split; auto. }
    rewrite IH. by destruct (list_find _ settings) as [[]|].
Qed.

Lemma select_setting_skip request_model pre m post :
  Forall (λ m', ¬ serves request_model m') pre →
  serves request_model m →
  select_setting request_model (pre ++ m :: post) = Some m.
Proof.
  intros Hpre Hm. rewrite select_setting_first.
  induction pre as [|a pre IH]; cbn [app list_find].
  - by rewrite decide_True.
  - inversion Hpre as [|?? Ha Hpre']; subst.
    rewrite decide_False by done. rewrite <- option_fmap_compose.
    specialize (IH Hpre'). destruct (list_find _ (pre ++ m :: post)) as [[]|]; done.
Qed.

Lemma select_setting_none request_model settings :
  Forall (λ m, ¬ serves request_model m) settings →
  select_setting request_model settings = None.
Proof.
  intros H. rewrite select_setting_first.
  destruct (list_find _ settings) as [[i m]|] eqn:Hf; [|done].
  apply list_find_Some in Hf as (Hi & Hm & _).
  rewrite Forall_lookup in H. by destruct (H _ _ Hi).
Qed.

(** Two embedding-capable entries; the requested name is the model name of
    the first and the alias of the second. *)
Definition by_model_name : ModelSettings :=
  {| model := "bge"; model_alias := Some "primary";
     embedding := true; is_hf_embedding_model := true |}.

Definition by_alias : ModelSettings :=
  {| model := "models/e5.gguf"; model_alias := Some "bge";
     embedding := true; is_hf_embedding_model := false |}.

(** C5 as stated fails: an exact alias match is not preferred.  The code
    takes the first entry whose model name matches, although a later entry
    carries the requested name as its alias. *)
Lemma alias_match_not_preferred :
  create_embedding_setting (Some "bge") [by_model_name; by_alias] = Ok by_model_name
  ∧ resolve_as_specified (Some "bge") [by_model_name; by_alias] = Some by_alias
  ∧ by_model_name ≠ by_alias.
Proof. split_and!; [reflexivity | reflexivity | discriminate]. Qed.

Lemma filter_singleton {A} (P : A → Prop) `{!∀ x, Decision (P x)} (l : list A) m :
  filter P l = [m] →
  ∃ pre post, l = pre ++ m :: post ∧ Forall (λ x, ¬ P x) pre ∧ P m.
Proof.
  induction l as [|a l IH]; [done|]. rewrite filter_cons.
  destruct (decide (P a)) as [Ha|Ha].
  - intros [= -> _]. by exists [], l.
  - intros (pre & post & -> & Hpre & Hm)%IH.
    exists (a :: pre), post. split_and!; [done | by constructor | done].
Qed.

(** C5, as amended.  The entry chosen for an embedding request is the first
    one, in configuration list order, that is embedding-capable and, when a
    model is named, has the name as its model name or as its alias (neither
    is preferred over the other); without such an entry the request fails
    with the [ValueError] of line 377.  In particular: without a model name
    and with exactly one embedding-capable entry, that entry is chosen; and
    a name that is the alias of the second of two embedding-capable entries
    chooses the second, unless it is also the alias or the model name of the
    first. *)
Theorem embedding_model_resolution (request_model : option string)
    (settings : list ModelSettings) :
  create_embedding_setting request_model settings
  = match list_find (serves request_model) settings with
    | Some (_, m) => Ok m
    | None => Raise (ValueError no_embedding_model)
    end
  ∧ (Forall (λ m, ¬ serves request_model m) settings →
     create_embedding_setting request_model settings
     = Raise (ValueError no_embedding_model))
  ∧ (∀ m, request_model = None →
          filter (λ m, embedding m = true) settings = [m] →
          create_embedding_setting request_model settings = Ok m)
  ∧ (∀ m1 m2 name,
       settings = [m1; m2] → embedding m1 = true → embedding m2 = true →
       request_model = Some name → model_alias m2 = Some name →
       model m1 ≠ name → model_alias m1 ≠ Some name →
       create_embedding_setting request_model settings = Ok m2).
Proof.
  unfold create_embedding_setting. split_and!.
  - rewrite select_setting_first. by destruct (list_find _ settings) as [[]|].
  - intros H. by rewrite select_setting_none.
  - intros m -> (pre & post & -> & Hpre & Hm)%filter_singleton.
    rewrite select_setting_skip; [done | | by split; auto].
    eapply Forall_impl; [exact Hpre|]. intros x Hx [? _]. done.
  - intros m1 m2 name -> He1 He2 -> Ha Hm1 Ha1.
    rewrite (select_setting_skip _ [m1] m2 []); [done | |].
    + constructor; [|done]. intros [_ [?|[?|?]]]; congruence.
    + split; auto.
Qed.

Lemma embedding_model_resolution_witness :
  create_embedding_setting (Some "bge") [by_model_name; by_alias] = Ok by_model_name
  ∧ create_embedding_setting None [by_alias] = Ok by_alias.
Proof.
  split.
  - rewrite (proj1 (embedding_model_resolution (Some "bge") [by_model_name; by_alias])).
    reflexivity.
  - destruct (embedding_model_resolution None [by_alias]) as (_ & _ & H & _).
    apply H; reflexivity.
Defined.

(** What [info] returns for a configured entry and the current engine. *)
Definition model_info (m : ModelSettings) (current : Llama) : pyval :=
  VDict [ ("model_name", VStr (default (model m) (model_alias m)));
          ("lora_names", opt_str (lora_path current)) ].

Lemma info_loop_current settings proxy current :
  _current_model proxy = Some current →
  info_loop settings (Some proxy)
  = match list_find (λ m, model_path current = model m) settings with
    | Some (_, m) => Ok (model_info m current)
    | None => Ok VNone
    end.
Proof.
  intros Hc. induction settings as [|m settings IH]; [done|].
  cbn [info_loop list_find]. rewrite Hc.
  destruct (decide (model_path current = model m)) as [Hm|Hm].
  - rewrite (bool_decide_eq_true_2 _ Hm). simpl. unfold model_info.
    by destruct (model_alias m).
  - rewrite (bool_decide_eq_false_2 _ Hm), IH.
    by destruct (list_find _ settings) as [[]|].
Qed.

(** An engine loaded from the second entry of [sample_settings] below, a
    proxy that holds it, and a proxy that holds nothing yet. *)
Definition loaded_engine : Llama :=
  {| model_path := "models/7B/ggml-model.bin"; lora_path := None;
     tokenize := λ _ _ _, []; token_eos := 2 |}.

Definition busy_proxy : LlamaProxy :=
  {| _current_model := Some loaded_engine; proxy_call := λ _, loaded_engine |}.

Definition idle_proxy : LlamaProxy :=
  {| _current_model := None; proxy_call := λ _, loaded_engine |}.

(** C8 as stated fails on its second part: with nothing loaded and an empty
    list of configured models, [info] does not fail; its loop body never
    runs and it returns [None]. *)
Lemma info_without_model_returns_none :
  _current_model idle_proxy = None
  ∧ info (Some []) (Some idle_proxy) = Ok VNone
  ∧ raised (info (Some []) (Some idle_proxy)) = false.
Proof. split_and!; reflexivity. Qed.

(** C8, as amended.  When an engine is loaded, [info] returns, for the first
    configured entry whose model path is the engine's, the entry's alias if
    it has one, else its path, together with the engine's lora path, and
    returns [None] when no entry has the engine's path.  When no engine is
    loaded (or the proxy itself is missing), [info] fails if at least one
    model is configured (the attribute access on the missing object raises)
    and returns [None] if the list of configured models is empty. *)
Theorem info_reports_current_model (settings : list ModelSettings)
    (proxy : LlamaProxy) :
  match _current_model proxy with
  | Some current =>
      match list_find (λ m, model_path current = model m) settings with
      | Some (_, m) =>
          info (Some settings) (Some proxy)
          = Ok (VDict
                  [ ("model_name",
                     VStr (match model_alias m with Some a => a | None => model m end));
                    ("lora_names", opt_str (lora_path current)) ])
      | None => info (Some settings) (Some proxy) = Ok VNone
      end
  | None =>
      (settings ≠ [] →
       info (Some settings) (Some proxy) = Raise AttributeError
       ∧ info (Some settings) None = Raise AttributeError)
      ∧ (settings = [] → info (Some settings) (Some proxy) = Ok VNone)
  end.
Proof.
  destruct (_current_model proxy) as [current|] eqn:Hc.
  - unfold info. rewrite (info_loop_current _ _ _ Hc).
    destruct (list_find _ settings) as [[i m]|]; [|done].
    unfold model_info. by destruct (model_alias m).
  - split.
    + intros Hne. destruct settings as [|m settings]; [done|]. simpl. by rewrite Hc.
    + by intros ->.
Qed.

Definition sample_settings : list ModelSettings :=
  [ {| model := "models/e5.gguf"; model_alias := None;
       embedding := true; is_hf_embedding_model := false |};
    {| model := "models/7B/ggml-model.bin"; model_alias := Some "gpt-3.5-turbo";
       embedding := false; is_hf_embedding_model := false |} ].

Lemma info_reports_current_model_witness :
  info (Some sample_settings) (Some busy_proxy)
  = Ok (VDict [("model_name", VStr "gpt-3.5-turbo"); ("lora_names", VNone)])
  ∧ info (Some sample_settings) (Some idle_proxy) = Raise AttributeError.
Proof.
  split.
  - exact (info_reports_current_model sample_settings busy_proxy).
  - destruct (info_reports_current_model sample_settings idle_proxy) as [H _].
    destruct H as [H _]; [discriminate | exact H].
Defined.

End RegistryFacts.

(* ===================================================================== *)
(** * Further properties of the access gate *)
(* ===================================================================== *)

Module GateMore.
Import Gate GateFacts.

Lemma holders_two holds l i j x y :
  i ≠ j → l !! i = Some x → l !! j = Some y →
  holds x = true → holds y = true → 2 ≤ holders holds l.
Proof.
  revert i j. induction l as [|a l IH]; intros [|i] [|j] Hne Hi Hj Hx Hy;
    simplify_eq/=.
  - pose proof (holders_member holds l j y Hj Hy) as H.
    unfold holders in *. simpl. rewrite Hx. simpl. lia.
  - pose proof (holders_member holds l i x Hi Hx) as H.
    unfold holders in *. simpl. rewrite Hy. simpl. lia.
  - assert (i ≠ j) as Hne' by congruence.
    specialize (IH i j Hne' Hi Hj Hx Hy). unfold holders in *. simpl. lia.
Qed.

Lemma holders_holder holds l :
  1 ≤ holders holds l → ∃ i x, l !! i = Some x ∧ holds x = true.
Proof.
  unfold holders. induction l as [|a l IH]; simpl; [lia|].
  destruct (holds a) eqn:Ha.
  - intros _. by exists 0, a.
  - simpl. intros (i & x & Hi & Hx)%IH. by exists (S i), x.
Qed.

(** A state some schedule leads to has the invariant. *)
Lemma reachable_inv n sched s : run sched (init n) = Some s → inv s.
Proof. intros H. eapply run_inv; [exact H | apply init_inv]. Qed.

Lemma exclusive holds l b i j x y :
  holders holds l = Nat.b2n b →
  l !! i = Some x → l !! j = Some y → holds x = true → holds y = true → i = j.
Proof.
  intros Hc Hi Hj Hx Hy. destruct (decide (i = j)) as [|Hne]; [done|].
  pose proof (holders_two holds l i j x y Hne Hi Hj Hx Hy). destruct b; simpl in *; lia.
Qed.

(** X1.  Mutual exclusion: in every state any schedule reaches, two callers
    that hold the inner lock are the same caller, and likewise for the outer
    lock. *)
Theorem locks_are_exclusive (n : nat) (sched : list (nat * input)) (s : system)
    (i j : nat) (f g : frame) :
  run sched (init n) = Some s →
  callers s !! i = Some f →
  callers s !! j = Some g →
  (holds_inner f = true → holds_inner g = true → i = j)
  ∧ (holds_outer f = true → holds_outer g = true → i = j).
Proof.
  intros (_ & Ho & Hi)%reachable_inv Hf Hg. split; intros Hx Hy.
  - by eapply (exclusive holds_inner).
  - by eapply (exclusive holds_outer).
Qed.

(** X2.  The lock flags tell the truth: a lock is locked exactly when some
    caller holds it. *)
Theorem locked_iff_held (n : nat) (sched : list (nat * input)) (s : system) :
  run sched (init n) = Some s →
  (llama_inner_lock (locks s) = true
   ↔ ∃ i f, callers s !! i = Some f ∧ holds_inner f = true)
  ∧ (llama_outer_lock (locks s) = true
     ↔ ∃ i f, callers s !! i = Some f ∧ holds_outer f = true).
Proof.
  intros (_ & Ho & Hi)%reachable_inv. split; split.
  - intros Hl. apply holders_holder. rewrite Hi, Hl. simpl. lia.
  - intros (i & f & Hf & Hh). pose proof (holders_member _ _ _ _ Hf Hh) as H.
    rewrite Hi in H. destruct (llama_inner_lock (locks s)); simpl in *; [done | lia].
  - intros Hl. apply holders_holder. rewrite Ho, Hl. simpl. lia.
  - intros (i & f & Hf & Hh). pose proof (holders_member _ _ _ _ Hf Hh) as H.
    rewrite Ho in H. destruct (llama_outer_lock (locks s)); simpl in *; [done | lia].
Qed.

Lemma frame_facts s i f :
  inv s → callers s !! i = Some f →
  shape f ∧ holds_outer f = outer_at f ∧ holds_inner f = inner_at f.
Proof.
  intros (Hshape & _) Hf.
  pose proof (proj1 (Forall_lookup _ _) Hshape _ _ Hf) as Hsf.
  split; [done|]. by apply shape_holds.
Qed.

Lemma outer_locked_by s i f :
  inv s → callers s !! i = Some f → outer_at f = true →
  llama_outer_lock (locks s) = true.
Proof.
  intros Hinv Hf Hat. destruct (frame_facts s i f Hinv Hf) as (_ & Ho & _).
  destruct Hinv as (_ & Hc & _).
  pose proof (holders_member holds_outer _ _ _ Hf) as H.
  rewrite Ho, Hc in H. specialize (H Hat).
  destruct (llama_outer_lock (locks s)); simpl in *; [done | lia].
Qed.

Lemma inner_locked_by s i f :
  inv s → callers s !! i = Some f → inner_at f = true →
  llama_inner_lock (locks s) = true.
Proof.
  intros Hinv Hf Hat. destruct (frame_facts s i f Hinv Hf) as (_ & _ & Hi).
  destruct Hinv as (_ & _ & Hc).
  pose proof (holders_member holds_inner _ _ _ Hf) as H.
  rewrite Hi, Hc in H. specialize (H Hat).
  destruct (llama_inner_lock (locks s)); simpl in *; [done | lia].
Qed.

Lemma sys_step_blocked i s f :
  callers s !! i = Some f → gen_step Run (locks s) f = None → sys_step i Run s = None.
Proof. intros Hf Hg. unfold sys_step. rewrite Hf. simpl. by rewrite Hg. Qed.

(** X3.  Contention is visible: while one caller owns the proxy (it is at the
    yield) and another has passed the outer lock and waits for the inner
    lock, the outer lock is locked, which is what the streaming caller
    tests; the waiting caller cannot move, and no third caller can enter
    the gate. *)
Theorem waiting_caller_is_visible (n : nat) (sched : list (nat * input)) (s : system)
    (i j : nat) (f g : frame) :
  run sched (init n) = Some s →
  callers s !! i = Some f → at_line f = Yielded →
  callers s !! j = Some g → at_line g = L82 →
  llama_outer_lock (locks s) = true
  ∧ sys_step j Run s = None
  ∧ (∀ k h, callers s !! k = Some h → at_line h = L79 → sys_step k Run s = None).
Proof.
  intros Hinv%reachable_inv Hf Haf Hg Hag.
  assert (llama_outer_lock (locks s) = true) as Ho.
  { apply (outer_locked_by s j g Hinv Hg). unfold outer_at. by rewrite Hag. }
  assert (llama_inner_lock (locks s) = true) as Hi.
  { apply (inner_locked_by s i f Hinv Hf). unfold inner_at. by rewrite Haf. }
  split_and!; [done | |].
  - apply (sys_step_blocked j s g Hg). unfold gen_step. by rewrite Hag, Hi.
  - intros k h Hh Hah. apply (sys_step_blocked k s h Hh).
    unfold gen_step. by rewrite Hah, Ho.
Qed.

Lemma inner_holder s :
  inv s → llama_inner_lock (locks s) = true →
  ∃ k h, callers s !! k = Some h ∧ inner_at h = true.
Proof.
  intros Hinv Hl. destruct (Hinv) as (_ & _ & Hc).
  destruct (holders_holder holds_inner (callers s)) as (k & h & Hh & Hin).
  { rewrite Hc, Hl. simpl. lia. }
  destruct (frame_facts s k h Hinv Hh) as (_ & _ & E). rewrite E in Hin. eauto.
Qed.

Lemma outer_holder s :
  inv s → llama_outer_lock (locks s) = true →
  ∃ k h, callers s !! k = Some h ∧ outer_at h = true.
Proof.
  intros Hinv Hl. destruct (Hinv) as (_ & Hc & _).
  destruct (holders_holder holds_outer (callers s)) as (k & h & Hh & Hin).
  { rewrite Hc, Hl. simpl. lia. }
  destruct (frame_facts s k h Hinv Hh) as (_ & E & _). rewrite E in Hin. eauto.
Qed.

(** Program points whose next statement never blocks. *)
Definition movable (p : pc) : bool :=
  match p with L80 | L84 | L85 | L86 | L88 | L90 => true | _ => false end.

Lemma movable_enabled s i f :
  callers s !! i = Some f → movable (at_line f) = true → is_Some (sys_step i Run s).
Proof.
  intros Hf Hm. unfold sys_step. rewrite Hf. simpl. unfold gen_step.
  destruct (at_line f); try done; simpl;
    repeat match goal with |- context [if ?c then _ else _] => destruct c end;
    simpl; eauto.
Qed.

Lemma yielded_enabled s i f :
  callers s !! i = Some f → at_line f = Yielded → is_Some (sys_step i Next s).
Proof.
  intros Hf Hat. unfold sys_step. rewrite Hf. simpl. unfold gen_step.
  rewrite Hat. simpl. eauto.
Qed.

(** Whoever holds the inner lock can move. *)
Lemma inner_holder_moves s k h :
  callers s !! k = Some h → inner_at h = true →
  ∃ inp, (inp = Run ∨ inp = Next) ∧ is_Some (sys_step k inp s).
Proof.
  intros Hh Hin. unfold inner_at in Hin.
  destruct (at_line h) eqn:Hat; try done.
  - exists Run. split; [auto|]. apply (movable_enabled s k h Hh). by rewrite Hat.
  - exists Run. split; [auto|]. apply (movable_enabled s k h Hh). by rewrite Hat.
  - exists Run. split; [auto|]. apply (movable_enabled s k h Hh). by rewrite Hat.
  - exists Next. split; [auto|]. by apply (yielded_enabled s k h Hh).
  - exists Run. split; [auto|]. apply (movable_enabled s k h Hh). by rewrite Hat.
Qed.

Lemma waiting_for_inner_moves s j g :
  inv s → callers s !! j = Some g → at_line g = L82 →
  ∃ k inp, (inp = Run ∨ inp = Next) ∧ is_Some (sys_step k inp s).
Proof.
  intros Hinv Hg Hat. destruct (llama_inner_lock (locks s)) eqn:Hl.
  - destruct (inner_holder s Hinv Hl) as (k & h & Hh & Hin).
    destruct (inner_holder_moves s k h Hh Hin) as (inp & ? & ?). eauto.
  - exists j, Run. split; [auto|]. unfold sys_step. rewrite Hg. simpl.
    unfold gen_step. rewrite Hat, Hl. simpl. eauto.
Qed.

(** X4.  The gate never deadlocks: in every state any schedule reaches, as
    long as some caller has not finished, some caller can take a step
    without any interrupt or exception: run its next statement, or leave
    its scope normally. *)
Theorem gate_never_deadlocks (n : nat) (sched : list (nat * input)) (s : system)
    (i : nat) (f : frame) :
  run sched (init n) = Some s →
  callers s !! i = Some f →
  at_line f ≠ Finished →
  ∃ k inp, (inp = Run ∨ inp = Next) ∧ is_Some (sys_step k inp s).
Proof.
  intros Hinv%reachable_inv Hf Hnf.
  destruct (at_line f) eqn:Hat; try done;
    try (exists i, Run; split; [auto|];
         apply (movable_enabled s i f Hf); by rewrite Hat).
  - (* L79 *)
    destruct (llama_outer_lock (locks s)) eqn:Hl.
    + destruct (outer_holder s Hinv Hl) as (k & h & Hh & Hout).
      unfold outer_at in Hout. destruct (at_line h) eqn:Hath; try done;
        try (exists k, Run; split; [auto|];
             apply (movable_enabled s k h Hh); by rewrite Hath).
      by apply (waiting_for_inner_moves s k h).
    + exists i, Run. split; [auto|]. unfold sys_step. rewrite Hf. simpl.
      unfold gen_step. rewrite Hat, Hl. simpl. eauto.
  - (* L82 *) by apply (waiting_for_inner_moves s i f).
  - (* Yielded *) exists i, Next. split; [auto|]. by apply (yielded_enabled s i f).
Qed.

(** What leaving the scope from the yield does to the whole system. *)
Lemma leave_result s i f how :
  inv s → callers s !! i = Some f → at_line f = Yielded → is_resume how = true →
  ∃ f', run [(i, how); (i, Run); (i, Run)] s
        = Some {| locks := set_inner false (locks s);
                  callers := <[i:=f']> (callers s) |}
        ∧ at_line f' = Finished.
Proof.
  intros Hinv Hf Hat Hres.
  destruct (frame_facts s i f Hinv Hf) as (Hsf & _ & _).
  pose proof (inner_locked_by s i f Hinv Hf) as Hl.
  unfold inner_at in Hl. rewrite Hat in Hl. specialize (Hl eq_refl).
  pose proof (lookup_lt_Some _ _ _ Hf) as Hlt.
  destruct s as [[o n] cs], f as [p b e t]; simpl in *. subst p n.
  unfold shape in Hsf; simpl in Hsf. destruct Hsf as (-> & -> & ->).
  set (e := match how with Throw => Some Thrown | Close => Some GeneratorExit | _ => None end).
  set (f1 := {| at_line := L88; release_outer_lock := false; pending := e;
                trace := [AcquireOuter; AcquireInner; ReleaseOuter; YieldProxy] |}).
  set (f2 := {| at_line := L90; release_outer_lock := false; pending := e;
                trace := [AcquireOuter; AcquireInner; ReleaseOuter; YieldProxy;
                          ReleaseInner] |}).
  exists (goto Finished f2). split; [|done].
  cbn [run].
  erewrite (sys_step_at i how _ _ (mkLocks o true) f1); [| done | by destruct how].
  cbn [mbind option_bind].
  erewrite (sys_step_at i Run _ _ (mkLocks o false) f2);
    [| by apply list_lookup_insert_eq | done].
  cbn [mbind option_bind callers locks].
  erewrite (sys_step_at i Run _ _ (mkLocks o false) (goto Finished f2));
    [| cbn [callers]; apply list_lookup_insert_eq; by rewrite length_insert | done].
  cbn [mbind option_bind callers locks].
  by rewrite !list_insert_insert_eq.
Qed.

(** X5.  Leaving the scope frees the inner lock and nothing else: the outer
    lock, which a waiting caller may hold by then, keeps its state, and no
    other caller's frame changes. *)
Theorem leaving_frees_only_the_inner_lock (n : nat) (sched : list (nat * input))
    (s s' : system) (i : nat) (f : frame) (how : input) :
  run sched (init n) = Some s →
  callers s !! i = Some f →
  at_line f = Yielded →
  is_resume how = true →
  run [(i, how); (i, Run); (i, Run)] s = Some s' →
  llama_inner_lock (locks s') = false
  ∧ llama_outer_lock (locks s') = llama_outer_lock (locks s)
  ∧ ∀ j, j ≠ i → callers s' !! j = callers s !! j.
Proof.
  intros Hinv%reachable_inv Hf Hat Hres Hrun.
  destruct (leave_result s i f how Hinv Hf Hat Hres) as (f' & Hrun' & _).
  rewrite Hrun' in Hrun. injection Hrun as <-. simpl. split_and!; [done | done |].
  intros j Hj. by apply list_lookup_insert_ne.
Qed.

(** A state with contention: caller 0 owns the proxy, caller 1 waits for the
    inner lock, caller 2 has not entered. *)
Definition contended_schedule : list (nat * input) :=
  [ (0, Run); (0, Run); (0, Run); (0, Run); (0, Run); (0, Run); (1, Run); (1, Run) ].

Definition owner : frame :=
  {| at_line := Yielded; release_outer_lock := false; pending := None;
     trace := [AcquireOuter; AcquireInner; ReleaseOuter; YieldProxy] |}.

Definition waiter : frame :=
  {| at_line := L82; release_outer_lock := true; pending := None;
     trace := [AcquireOuter] |}.

Definition contended_system : system :=
  {| locks := mkLocks true true; callers := [owner; waiter; fresh] |}.

Lemma contended_reachable : run contended_schedule (init 3) = Some contended_system.
Proof. reflexivity. Qed.

Lemma locks_are_exclusive_witness : holds_outer owner = false.
Proof.
  destruct (holds_outer owner) eqn:H; [|reflexivity].
  pose proof (proj2 (locks_are_exclusive 3 contended_schedule contended_system 0 1
                       owner waiter contended_reachable eq_refl eq_refl)
                H eq_refl) as Hne.
  discriminate Hne.
Defined.

Lemma locked_iff_held_witness :
  ∃ i f, callers contended_system !! i = Some f ∧ holds_outer f = true.
Proof.
  apply (proj2 (locked_iff_held 3 contended_schedule contended_system
                  contended_reachable)).
  reflexivity.
Defined.

Lemma waiting_caller_is_visible_witness :
  llama_outer_lock (locks contended_system) = true
  ∧ sys_step 1 Run contended_system = None.
Proof.
  destruct (waiting_caller_is_visible 3 contended_schedule contended_system 0 1
              owner waiter contended_reachable eq_refl eq_refl eq_refl eq_refl)
    as (H1 & H2 & _).
  exact (conj H1 H2).
Defined.

Lemma gate_never_deadlocks_witness :
  ∃ k inp, (inp = Run ∨ inp = Next) ∧ is_Some (sys_step k inp contended_system).
Proof.
  apply (gate_never_deadlocks 3 contended_schedule contended_system 1 waiter
           contended_reachable eq_refl).
  discriminate.
Defined.

Lemma leaving_frees_only_the_inner_lock_witness :
  llama_outer_lock (locks {| locks := mkLocks true false;
                             callers := [goto Finished (log ReleaseInner owner);
                                         waiter; fresh] |}) = true.
Proof.
  destruct (leaving_frees_only_the_inner_lock 3 contended_schedule contended_system
              {| locks := mkLocks true false;
                 callers := [goto Finished (log ReleaseInner owner); waiter; fresh] |}
              0 owner Next contended_reachable eq_refl eq_refl eq_refl eq_refl)
    as (_ & H & _).
  exact H.
Defined.

End GateMore.

(* ===================================================================== *)
(** * Further properties of the publisher and of the handlers' cleanup *)
(* ===================================================================== *)

Module PublisherMore.
Import Py Gate Publisher PublisherFacts Handlers.

Lemma close_quiet s :
  sent (exit_stack_close s) = sent s ∧ pulled (exit_stack_close s) = pulled s.
Proof. unfold exit_stack_close. by destruct (leave_all _ _ _). Qed.

Section More.
Context {chunk : Type}.
Variable json_dumps : chunk → string.

Definition interrupt_of (server_settings : option ServerSettings) : bool :=
  match server_settings with Some st => interrupt_requests st | None => false end.

(** The frames that end a stream whose iterator ended with [e]. *)
Definition closing (e : ending) : list message :=
  match e with StopIteration => [DONE] | EngineError => [] end.

Definition outcome_of (e : ending) : outcome :=
  match e with StopIteration => Returned | EngineError => EngineFailed end.

Lemma stream_in_full server_settings env (first : chunk) rest e s :
  (∀ j, j < S (length rest) →
        is_disconnected env j = false
        ∧ interrupt_of server_settings && outer_taken env j = false) →
  ∃ s', stream_response json_dumps server_settings env first rest e s
        = (s', outcome_of e)
        ∧ sent s' = sent s ++ (message_of json_dumps <$> first :: rest) ++ closing e
        ∧ pulled s' = pulled s + S (length rest).
Proof.
  intros H. unfold stream_response, get_event_publisher.
  fold (interrupt_of server_settings).
  cbn [chunks tail handler_iterator].
  pose proof (publish_prefix json_dumps (interrupt_of server_settings) env 0
                (first :: rest) []
                (λ s, match e with
                      | StopIteration => (exit_stack_close s, StopIteration)
                      | EngineError => (s, EngineError)
                      end) s) as Hpre.
  rewrite app_nil_r in Hpre. rewrite Hpre by (intros j Hj; apply H; simpl in Hj; lia).
  clear Hpre. cbn [publish].
  set (s1 := advance json_dumps env 0 (first :: rest) s).
  assert (sent s1 = sent s ++ (message_of json_dumps <$> first :: rest)) as Hsent
    by apply advance_sent.
  assert (pulled s1 = pulled s + S (length rest)) as Hpulled
    by apply (advance_pulled json_dumps env 0 (first :: rest) s).
  destruct e; cbn [closing outcome_of].
  - eexists. split; [reflexivity|].
    destruct (close_quiet (send DONE (exit_stack_close s1))) as [-> ->].
    cbn [send sent pulled].
    destruct (close_quiet s1) as [-> ->]. rewrite Hsent, Hpulled.
    by rewrite <- app_assoc.
  - eexists. split; [reflexivity|].
    destruct (close_quiet s1) as [-> ->]. rewrite Hsent, Hpulled.
    by rewrite app_nil_r.
Qed.

(** X6.  A stream that is neither disconnected nor interrupted is delivered
    in full: every chunk's frame in production order, then [[DONE]] when
    the engine iterator ends normally and nothing when it raises (the
    exception then propagates). *)
Theorem stream_delivered_in_full (server_settings : option ServerSettings)
    (env : client) (first_response : chunk) (iterator_or_completion : list chunk)
    (e : ending) (s : session) :
  (∀ j, j < S (length iterator_or_completion) →
        is_disconnected env j = false
        ∧ interrupt_of server_settings && outer_taken env j = false) →
  ∃ s', stream_response json_dumps server_settings env first_response
          iterator_or_completion e s
        = (s', match e with StopIteration => Returned | EngineError => EngineFailed end)
        ∧ sent s'
          = sent s
            ++ (message_of json_dumps <$> first_response :: iterator_or_completion)
            ++ match e with StopIteration => [DONE] | EngineError => [] end
        ∧ pulled s' = pulled s + S (length iterator_or_completion).
Proof. apply stream_in_full. Qed.

(** X7.  Without [interrupt_requests] (the flag is off, or no server
    settings are set) contention never truncates a stream: if the client
    stays connected, every chunk and the final [[DONE]] are sent whatever
    the outer lock does. *)
Theorem no_interrupt_without_setting (server_settings : option ServerSettings)
    (env : client) (first_response : chunk) (iterator_or_completion : list chunk)
    (s : session) :
  interrupt_of server_settings = false →
  (∀ j, j < S (length iterator_or_completion) → is_disconnected env j = false) →
  ∃ s', stream_response json_dumps server_settings env first_response
          iterator_or_completion StopIteration s = (s', Returned)
        ∧ sent s'
          = sent s
            ++ (message_of json_dumps <$> first_response :: iterator_or_completion)
            ++ [DONE].
Proof.
  intros Hoff Hconn.
  destruct (stream_in_full server_settings env first_response
              iterator_or_completion StopIteration s) as (s' & H1 & H2 & _).
  { intros j Hj. rewrite Hoff. split; [by apply Hconn | done]. }
  by exists s'.
Qed.

(** What a run of the loop can have sent. *)
Lemma publish_in_order interrupt env i (todo : list chunk) (first : chunk) rest e s :
  let r := publish json_dumps interrupt env i todo
             (tail (handler_iterator first rest e)) s in
  ∃ k, k ≤ length todo
       ∧ (todo ≠ [] → 1 ≤ k)
       ∧ pulled r.1 = pulled s + k
       ∧ (sent r.1 = sent s ++ (message_of json_dumps <$> take k todo)
          ∨ sent r.1 = sent s ++ (message_of json_dumps <$> take k todo) ++ [DONE])
       ∧ (r.2 = Returned →
          k = length todo
          ∧ sent r.1 = sent s ++ (message_of json_dumps <$> todo) ++ [DONE]).
Proof.
  revert i s. induction todo as [|c todo IH]; intros i s; cbn [publish].
  - exists 0. cbn [handler_iterator tail]. destruct e; cbn [fst snd].
    + cbn [send sent pulled]. destruct (close_quiet s) as [-> ->].
      split_and!; first [done | lia | by right | by intros _].
    + split_and!; first [done | lia | by left; rewrite app_nil_r].
  - destruct (is_disconnected env i).
    { exists 1. cbn [fst snd send pull sent pulled length take fmap list_fmap].
      split_and!; first [done | lia | by left]. }
    destruct (interrupt && _).
    { exists 1. cbn [fst snd send pull others_move sent pulled length take fmap list_fmap].
      split_and!; first [done | lia | by right; rewrite <- app_assoc]. }
    specialize (IH (S i)
      (others_move (outer_taken env i) (send (message_of json_dumps c) (pull s)))).
    cbv zeta in IH. destruct IH as (k & Hk & _ & Hp & Hs & Hr).
    cbn [send pull others_move sent pulled] in Hp, Hs, Hr.
    exists (S k). cbn [length take fmap list_fmap].
    split_and!; [lia | lia | lia | |].
    + destruct Hs as [->| ->]; [left | right]; by rewrite <- app_assoc.
    + intros Hret. destruct (Hr Hret) as [-> ->]. split; [done|].
      by rewrite <- app_assoc.
Qed.

(** X8.  Whatever the client and the other callers do, what a streaming
    response has sent is the frames of the first [k] chunks, in production
    order and without gaps or repeats, for some [k ≥ 1], possibly followed
    by one [[DONE]]; exactly [k] chunks were pulled; and when the publisher
    returns normally all chunks and the [[DONE]] were sent. *)
Theorem frames_in_production_order (server_settings : option ServerSettings)
    (env : client) (first_response : chunk) (iterator_or_completion : list chunk)
    (e : ending) (s s' : session) (out : outcome) :
  stream_response json_dumps server_settings env first_response
    iterator_or_completion e s = (s', out) →
  ∃ k, 1 ≤ k ≤ S (length iterator_or_completion)
       ∧ pulled s' = pulled s + k
       ∧ (sent s' = sent s
                    ++ (message_of json_dumps
                          <$> take k (first_response :: iterator_or_completion))
          ∨ sent s' = sent s
                      ++ (message_of json_dumps
                            <$> take k (first_response :: iterator_or_completion))
                      ++ [DONE])
       ∧ (out = Returned →
          sent s' = sent s
                    ++ (message_of json_dumps
                          <$> first_response :: iterator_or_completion)
                    ++ [DONE]).
Proof.
  unfold stream_response, get_event_publisher. cbn [chunks].
  pose proof (publish_in_order (interrupt_of server_settings) env 0
                (first_response :: iterator_or_completion)
                first_response iterator_or_completion e s) as H.
  cbv zeta in H. unfold interrupt_of in H.
  destruct (publish json_dumps _ env 0 _ _ s) as [s1 out1].
  cbn [fst snd] in H. intros [= <- <-].
  destruct H as (k & Hk & Hk1 & Hp & Hs & Hr).
  destruct (close_quiet s1) as [Es Ep].
  exists k. rewrite Es, Ep. cbn [length] in Hk.
  split_and!; [by apply Hk1 | lia | done | done |].
  intros Hret. by destruct (Hr Hret).
Qed.

End More.

Section Cleanup.
Context {chunk : Type}.
Variable json_dumps : chunk → string.
Variable from_string : string → result pyval.

Lemma stream_response_cleaned server_settings env (first : chunk) rest e s :
  armed s →
  exit_stack (stream_response json_dumps server_settings env first rest e s).1 = []
  ∧ 1 ≤ closes (stream_response json_dumps server_settings env first rest e s).1
  ∧ llama_inner_lock
      (gate (stream_response json_dumps server_settings env first rest e s).1) = false.
Proof.
  intros Hs. unfold stream_response, get_event_publisher.
  pose proof (publish_cleanup json_dumps
                (match server_settings with
                 | Some st => interrupt_requests st
                 | None => false
                 end) env 0
                (chunks (handler_iterator first rest e)) first rest e s Hs) as H.
  cbv zeta in H.
  destruct (publish json_dumps _ env 0 _ _ s) as [s1 out].
  cbn [fst snd] in *. destruct H as [[_ Hc]|[_ Ha]].
  - destruct (close_cleaned 1 s1 Hc) as [(? & ? & Hcl & ?) _].
    split_and!; [done | lia | done].
  - destruct (close_armed s1 Ha) as [(? & ? & Hcl & ?) _].
    split_and!; [done | lia | done].
Qed.


(** X10.  [create_chat_completion] has closed its exit stack and freed the
    inner lock whenever it returns a response, streamed or not; when it
    raises it finishes with the gate's context still registered and the
    inner lock still locked. *)
Theorem create_chat_completion_closes_on_return (llama_proxy : option LlamaProxy)
    (body : gmap string pyval) (call : Shaping.invocation → generation)
    (server_settings : option ServerSettings) (env : client)
    (l0 : Locks) (s0 s' : session) (r : result response) :
  open_session l0 = Some s0 →
  create_chat_completion_request json_dumps from_string llama_proxy body call
    server_settings env s0 = (s', r) →
  (raised r = false
   → exit_stack s' = [] ∧ 1 ≤ closes s' ∧ llama_inner_lock (gate s') = false)
  ∧ (raised r = true
     → s' = s0 ∧ closes s' = 0 ∧ exit_stack s' = [entered]
       ∧ llama_inner_lock (gate s') = true).
Proof.
  intros Hs0%open_session_armed. unfold create_chat_completion_request.
  destruct (Shaping.create_chat_completion _ _ _) as [inv|err].
  - destruct (call inv) as [c|first rest e|err].
    + intros [= <- <-]. split; [|done]. intros _.
      destruct (close_armed s0 Hs0) as [(? & ? & Hcl & ?) _].
      split_and!; [done | lia | done].
    + pose proof (stream_response_cleaned server_settings env first rest e s0 Hs0) as H.
      destruct (stream_response json_dumps server_settings env first rest e s0)
        as [s1 out]. cbn [fst] in H. intros [= <- <-]. split; [done|]. done.
    + intros [= <- <-]. split; [done|].
      intros _. destruct Hs0 as (? & ? & ? & ?). by split_and!.
  - intros [= <- <-]. split; [done|].
    intros _. destruct Hs0 as (? & ? & ? & ?). by split_and!.
Qed.

End Cleanup.

(** Sample clients: one that stays and sees no contention, one that stays
    under constant contention, one that leaves after the second chunk. *)
Definition quiet_client : client :=
  {| is_disconnected := λ _, false; outer_taken := λ _, false |}.

Definition contended_client : client :=
  {| is_disconnected := λ _, false; outer_taken := λ _, true |}.

Definition leaving_client : client :=
  {| is_disconnected := λ j, bool_decide (j = 1); outer_taken := λ _, false |}.

Lemma stream_delivered_in_full_witness :
  ∃ s', stream_response sample_json_dumps (Some sample_settings) quiet_client
          "a" ["b"] StopIteration sample_session = (s', Returned)
        ∧ sent s' = [ {| data := "{a" |}; {| data := "{b" |}; {| data := "[DONE]" |} ].
Proof.
  destruct (stream_delivered_in_full sample_json_dumps (Some sample_settings)
              quiet_client "a" ["b"] StopIteration sample_session)
    as (s' & H1 & H2 & _).
  - intros j _. split; reflexivity.
  - exists s'. split; [exact H1 | exact H2].
Defined.

Lemma no_interrupt_without_setting_witness :
  ∃ s', stream_response sample_json_dumps None contended_client
          "a" ["b"] StopIteration sample_session = (s', Returned)
        ∧ sent s' = [ {| data := "{a" |}; {| data := "{b" |}; {| data := "[DONE]" |} ].
Proof.
  destruct (no_interrupt_without_setting sample_json_dumps None contended_client
              "a" ["b"] sample_session eq_refl) as (s' & H1 & H2).
  - intros j _. reflexivity.
  - exists s'. split; [exact H1 | exact H2].
Defined.

Lemma frames_in_production_order_witness :
  ∃ k, 1 ≤ k ≤ 3
       ∧ pulled (stream_response sample_json_dumps (Some sample_settings)
                   leaving_client "a" ["b"; "c"] StopIteration sample_session).1
         = k.
Proof.
  destruct (frames_in_production_order sample_json_dumps (Some sample_settings)
              leaving_client "a" ["b"; "c"] StopIteration sample_session
              (stream_response sample_json_dumps (Some sample_settings)
                 leaving_client "a" ["b"; "c"] StopIteration sample_session).1
              (stream_response sample_json_dumps (Some sample_settings)
                 leaving_client "a" ["b"; "c"] StopIteration sample_session).2
              eq_refl) as (k & Hk & Hp & _).
  exists k. split; [exact Hk | exact Hp].
Defined.

Definition completes_at_once (inv : Shaping.invocation) : @generation string :=
  Completed (VDict [("object", VStr "text_completion")]).


Lemma create_chat_completion_closes_on_return_witness :
  exit_stack (exit_stack_close sample_session) = []
  ∧ 1 ≤ closes (exit_stack_close sample_session)
  ∧ llama_inner_lock (gate (exit_stack_close sample_session)) = false.
Proof.
  destruct (create_chat_completion_closes_on_return sample_json_dumps
              ShapingFacts.sample_from_string
              (Some ShapingFacts.sample_proxy) ShapingFacts.sample_body
              completes_at_once (Some sample_settings) quiet_client
              (mkLocks false false) sample_session (exit_stack_close sample_session)
              (Ok (JSON (VDict [("object", VStr "text_completion")])))
              eq_refl) as [H _].
  - vm_compute. reflexivity.
  - exact (H eq_refl).
Defined.

End PublisherMore.

(* ===================================================================== *)
(** * Further properties of request shaping *)
(* ===================================================================== *)

Module ShapingMore.
Import Py Shaping ShapingFacts.

#[local] Set Warnings "-clear-no-such-hyp".

(** *** The dictionary built by [_logit_bias_tokens_to_input_ids] *)

Lemma keys_dict_set {A} (k : string) (v : A) d :
  (dict_set k v d).*1 = if decide (k ∈ d.*1) then d.*1 else d.*1 ++ [k].
Proof.
  induction d as [|[k0 v0] d IH]; [done|]. cbn [dict_set fmap list_fmap fst].
  destruct (decide (k0 = k)) as [->|Hne].
  - rewrite decide_True by (by left). done.
  - cbn [fmap list_fmap fst]. fold (fmap (M:=list) (@fst string A)).
    rewrite IH. destruct (decide (k ∈ d.*1)) as [Hin|Hin].
    + rewrite decide_True by (by right). done.
    + rewrite decide_False; [done|]. intros [?|?]%elem_of_cons; congruence.
Qed.

Lemma dict_set_NoDup {A} (k : string) (v : A) d :
  NoDup d.*1 → NoDup (dict_set k v d).*1.
Proof.
  intros Hd. rewrite keys_dict_set. case_decide as Hin; [done|].
  apply NoDup_app. split_and!; [done | | apply NoDup_singleton].
  intros x Hx ->%list_elem_of_singleton. done.
Qed.

Lemma dict_set_length {A} (k : string) (v : A) d :
  length (dict_set k v d) ≤ S (length d).
Proof.
  induction d as [|[k0 v0] d IH]; simpl; [lia|]. case_decide; simpl; lia.
Qed.

Lemma bias_ids_NoDup {A} (score : A) ids d :
  NoDup d.*1 → NoDup (bias_ids score ids d).*1.
Proof.
  revert d. induction ids as [|i ids IH]; intros d Hd; [done|].
  unfold bias_ids in *. cbn [foldl]. by apply IH, dict_set_NoDup.
Qed.

Lemma bias_ids_length {A} (score : A) ids d :
  length (bias_ids score ids d) ≤ length d + length ids.
Proof.
  revert d. induction ids as [|i ids IH]; intros d; [simpl; lia|].
  unfold bias_ids in *. cbn [foldl length].
  specialize (IH (dict_set (str i) score d)).
  pose proof (dict_set_length (str i) score d). lia.
Qed.

(** The number of tokens the request keys give in all. *)
Definition token_count {A} (llama : Llama) (d : list (string * A)) : nat :=
  sum_list_with (λ item, length (tokenize llama (encode_utf8 item.1) false true)) d.

Lemma bias_items_invariant {A} llama (items d : list (string * A)) :
  NoDup d.*1 →
  NoDup (bias_items llama items d).*1
  ∧ length (bias_items llama items d) ≤ length d + token_count llama items.
Proof.
  revert d. induction items as [|[t s] items IH]; intros d Hd.
  - simpl. split; [done | lia].
  - unfold bias_items in *. cbn [foldl].
    fold (bias_ids s (tokenize llama (encode_utf8 t) false true) d).
    destruct (IH (bias_ids s (tokenize llama (encode_utf8 t) false true) d))
      as [Hn Hl]; [by apply bias_ids_NoDup|].
    split; [done|].
    pose proof (bias_ids_length s (tokenize llama (encode_utf8 t) false true) d).
    unfold token_count in *. cbn [sum_list_with fst]. lia.
Qed.

(** X11.  The dictionary [_logit_bias_tokens_to_input_ids] returns has no
    key twice, whatever ids the tokenizer repeats, and at most one entry per
    token the request keys give; for an empty map it is empty. *)
Theorem logit_bias_ids_are_distinct {A} (llama : Llama) (d : list (string * A)) :
  NoDup (_logit_bias_tokens_to_input_ids llama d).*1
  ∧ length (_logit_bias_tokens_to_input_ids llama d) ≤ token_count llama d
  ∧ (d = [] → _logit_bias_tokens_to_input_ids llama d = []).
Proof.
  rewrite logit_bias_tokens_unfold.
  destruct (bias_items_invariant llama d []) as [Hn Hl]; [constructor|].
  split_and!; [done | simpl in Hl; lia | by intros ->].
Qed.

Lemma bias_items_snoc {A} llama (d : list (string * A)) t s acc :
  bias_items llama (d ++ [(t, s)]) acc
  = bias_ids s (tokenize llama (encode_utf8 t) false true) (bias_items llama d acc).
Proof. unfold bias_items. by rewrite foldl_app. Qed.

Global Instance yields_dec llama k token : Decision (yields llama k token).
Proof. unfold yields. apply _. Defined.

Lemma agreed_score {A} llama k (d : list (string * A)) token score :
  (token, score) ∈ d → yields llama k token →
  (∀ token' score', (token', score') ∈ d → yields llama k token' → score' = score) →
  dict_get k (bias_items llama d []) = Some score.
Proof.
  revert token. induction d as [|[t s] d IH] using rev_ind; intros token Hin Hk Hall.
  - by apply elem_of_nil in Hin.
  - rewrite bias_items_snoc, dict_get_bias_ids.
    destruct (decide (yields llama k t)) as [Ht|Ht].
    + rewrite decide_True by exact Ht. f_equal. apply (Hall t s); [|done].
      apply elem_of_app. right. by left.
    + rewrite decide_False by exact Ht.
      apply elem_of_app in Hin as [Hin|Hin].
      * apply (IH token Hin Hk). intros t' s' Hin' Hk'.
        apply (Hall t' s'); [|done]. apply elem_of_app. by left.
      * apply list_elem_of_singleton in Hin. by simplify_eq.
Qed.

(** X12.  When all the request keys whose tokens include a token id carry
    the same score (in particular when a single key gives that id), the id
    is mapped to that score: every token id of such a key gets the key's
    score. *)
Theorem uncontested_id_gets_its_keys_score {A} (llama : Llama)
    (d : list (string * A)) (k token : string) (score : A) :
  (token, score) ∈ d →
  yields llama k token →
  (∀ token' score', (token', score') ∈ d → yields llama k token' → score' = score) →
  dict_get k (_logit_bias_tokens_to_input_ids llama d) = Some score.
Proof. rewrite logit_bias_tokens_unfold. apply agreed_score. Qed.

(** X13.  The order of the request's keys matters only under a conflict: two
    maps with the same items in different orders give the same value (or
    none) at a token id, unless two keys with different scores both give
    that id. *)
Theorem logit_bias_order_matters_only_on_conflict {A} (llama : Llama)
    (d d' : list (string * A)) (k : string) :
  d ≡ₚ d' →
  (∀ t1 s1 t2 s2, (t1, s1) ∈ d → (t2, s2) ∈ d →
                  yields llama k t1 → yields llama k t2 → s1 = s2) →
  dict_get k (_logit_bias_tokens_to_input_ids llama d)
  = dict_get k (_logit_bias_tokens_to_input_ids llama d').
Proof.
  intros Hp Hagree. rewrite !logit_bias_tokens_unfold.
  destruct (decide (Exists (λ item, yields llama k item.1) d)) as [Hex|Hno].
  - apply Exists_exists in Hex as ([t s] & Hin & Hk). simpl in Hk.
    assert (∀ t' s', (t', s') ∈ d → yields llama k t' → s' = s) as Hall
      by (intros t' s' Hin' Hk'; by apply (Hagree t' s' t s)).
    rewrite (agreed_score llama k d t s Hin Hk Hall).
    symmetry. apply (agreed_score llama k d' t s).
    + by rewrite <- Hp.
    + done.
    + intros t' s' Hin' Hk'. rewrite <- Hp in Hin'. by apply (Hall t' s').
  - assert (∀ l, l ≡ₚ d → dict_get k (bias_items llama l []) = None) as Hnone.
    { intros l Hl. apply dict_get_bias_items_None. split; [done|].
      intros t s Hin Hk. apply Hno, Exists_exists. exists (t, s).
      split; [by rewrite <- Hl | done]. }
    by rewrite (Hnone d), (Hnone d').
Qed.

(** *** What the handlers pass for [logits_processor], [grammar], [model] *)

Section HandlersMore.
Variable from_string : string → result pyval.

Lemma shape_kwargs_steps llama body kw kw' :
  shape_kwargs from_string llama body kw = Ok kw' →
  ∃ kw1 kw2,
    set_logit_bias llama body kw = Ok kw1
    ∧ set_grammar from_string body kw1 = Ok kw2
    ∧ set_min_tokens llama body kw2 = Ok kw'.
Proof.
  unfold shape_kwargs. intros (kw1 & H1 & (kw2 & H2 & H3)%bind_Ok)%bind_Ok.
  by exists kw1, kw2.
Qed.

Lemma shaped_body_other ep body k :
  k ≠ "prompt" → shaped_body ep body !! k = body !! k.
Proof. intros Hk. destruct ep; simpl; [by apply normalized_other | done]. Qed.

Lemma set_min_tokens_value llama body kw kw' n :
  set_min_tokens llama body kw = Ok kw' →
  body !! "min_tokens" = Some (VInt n) →
  if bool_decide (0 < n)%Z
  then match kw !! "logits_processor" with
       | None =>
           kw' !! "logits_processor" = Some (VList [VMinTokens n (token_eos llama)])
       | Some (VList l) =>
           kw' !! "logits_processor"
           = Some (VList (l ++ [VMinTokens n (token_eos llama)]))
       | Some _ => False
       end
  else kw' = kw.
Proof.
  unfold set_min_tokens, getattr. intros H Hn. rewrite Hn in H. simpl in H.
  case_bool_decide; [|by simplify_eq].
  destruct (kw !! "logits_processor") as [[]|]; simplify_eq/=;
    by rewrite lookup_insert_eq.
Qed.

Lemma set_grammar_value body kw kw' v :
  set_grammar from_string body kw = Ok kw' →
  body !! "grammar" = Some v →
  match v with
  | VNone => kw' = kw
  | VStr g => ∃ c, from_string g = Ok c ∧ kw' !! "grammar" = Some c
  | _ => False
  end.
Proof.
  unfold set_grammar, getattr. intros H Hv. rewrite Hv in H. simpl in H.
  destruct v; simplify_eq/=; try done.
  apply bind_Ok in H as (c & Hc & H). simplify_eq/=.
  exists c. by rewrite lookup_insert_eq.
Qed.

(** X14.  When a request reaches the engine with a positive [min_tokens]
    [n]: if it has no [logits_processor] field the engine gets the one-item
    list [[MinTokensLogitsProcessor(n, eos)]], [eos] being the chosen
    engine's end-of-sequence token; if the field is a list the processor is
    appended to it; with any other value of the field (null included) the
    request never reaches the engine.  With [min_tokens ≤ 0] the field is
    passed as the request has it. *)
Theorem min_tokens_processor_installed (ep : endpoint)
    (llama_proxy : option LlamaProxy) (body : gmap string pyval)
    (inv : invocation) (n : Z) :
  handle from_string ep llama_proxy body = Ok inv →
  body !! "min_tokens" = Some (VInt n) →
  if bool_decide (0 < n)%Z
  then match body !! "logits_processor" with
       | None =>
           kwargs inv !! "logits_processor"
           = Some (VList [VMinTokens n (token_eos (engine inv))])
       | Some (VList l) =>
           kwargs inv !! "logits_processor"
           = Some (VList (l ++ [VMinTokens n (token_eos (engine inv))]))
       | Some _ => False
       end
  else kwargs inv !! "logits_processor" = body !! "logits_processor".
Proof.
  intros H%handle_Ok Hn.
  apply shape_kwargs_steps in H as (kw1 & kw2 & H1 & H2 & H3).
  assert (kw2 !! "logits_processor" = body !! "logits_processor") as Hlp.
  { rewrite (set_grammar_other _ _ _ _ "logits_processor" H2) by done.
    rewrite (set_logit_bias_other _ _ _ _ "logits_processor" H1) by done.
    rewrite model_dump_lookup, decide_False.
    - by apply shaped_body_other.
    - destruct ep; simpl; unfold completion_exclude, chat_exclude; set_solver. }
  rewrite <- (shaped_body_other ep body "min_tokens") in Hn by done.
  pose proof (set_min_tokens_value _ _ _ _ n H3 Hn) as Hv.
  rewrite Hlp in Hv. case_bool_decide; [done|]. by rewrite Hv.
Qed.

(** X15.  When a request reaches the engine: a grammar given as text has
    been compiled by [LlamaGrammar.from_string] without an exception and the
    engine gets the compiled grammar (so a grammar that does not compile
    never reaches the engine); a null grammar is passed as null. *)
Theorem grammar_compiled_before_engine (ep : endpoint)
    (llama_proxy : option LlamaProxy) (body : gmap string pyval)
    (inv : invocation) (v : pyval) :
  handle from_string ep llama_proxy body = Ok inv →
  body !! "grammar" = Some v →
  match v with
  | VNone => kwargs inv !! "grammar" = Some VNone
  | VStr g => ∃ c, from_string g = Ok c ∧ kwargs inv !! "grammar" = Some c
  | _ => False
  end.
Proof.
  intros H%handle_Ok Hv.
  apply shape_kwargs_steps in H as (kw1 & kw2 & H1 & H2 & H3).
  rewrite (set_min_tokens_other _ _ _ _ "grammar" H3) by done.
  assert (shaped_body ep body !! "grammar" = Some v) as Hv'
    by (by rewrite shaped_body_other).
  pose proof (set_grammar_value _ _ _ _ H2 Hv') as Hg.
  destruct v; try done. rewrite Hg.
  rewrite (set_logit_bias_other _ _ _ _ "grammar" H1) by done.
  rewrite model_dump_lookup, decide_False; [done|].
  destruct ep; simpl; unfold completion_exclude, chat_exclude; set_solver.
Qed.

Lemma create_completion_engine path proxy body inv :
  create_completion from_string path (Some proxy) body = Ok inv →
  ∃ name,
    (if bool_decide (path ≠ copilot_path)
     then getattr (normalized body) "model"
     else Ok (VStr "copilot-codex")) = Ok name
    ∧ engine inv = proxy_call proxy name.
Proof.
  unfold create_completion. intros (proxy' & Hp & H)%bind_Ok. simplify_eq/=.
  apply bind_Ok in H as (prompt & Hprompt%getattr_Ok & H).
  apply bind_Ok in H as (body' & Hbody & H).
  apply bind_Ok in H as (name & Hname & H).
  apply bind_Ok in H as (kw1 & H1 & H).
  apply bind_Ok in H as (kw2 & H2 & H).
  apply bind_Ok in H as (kw3 & H3 & H). simplify_eq/=.
  exists name. split; [|done].
  assert (body' = normalized body) as <-; [|done].
  unfold normalized. rewrite Hprompt.
  destruct prompt; simplify_eq/=; try done.
  by destruct (bool_decide (length l ≤ 1)); simplify_eq/=.
Qed.

(** X16.  Which engine a text completion runs on: through the copilot route
    it is the engine the proxy gives for ["copilot-codex"], whatever model
    the request names; through any other route it is the engine the proxy
    gives for the request's [model].  Either way the [model] keyword is the
    request's own. *)
Theorem completion_engine_selection (path : string) (proxy : LlamaProxy)
    (body : gmap string pyval) (inv : invocation) :
  create_completion from_string path (Some proxy) body = Ok inv →
  (path = copilot_path → engine inv = proxy_call proxy (VStr "copilot-codex"))
  ∧ (path ≠ copilot_path →
     ∃ m, body !! "model" = Some m ∧ engine inv = proxy_call proxy m)
  ∧ kwargs inv !! "model" = body !! "model".
Proof.
  intros H. pose proof (create_completion_engine _ _ _ _ H) as (name & Hname & He).
  split_and!.
  - intros ->. rewrite bool_decide_eq_false_2 in Hname by (intros Hne; by apply Hne).
    by simplify_eq.
  - intros Hne. rewrite bool_decide_eq_true_2 in Hname by done.
    apply getattr_Ok in Hname. rewrite normalized_other in Hname by done.
    by exists name.
  - apply (handle_Ok from_string (Completion path)) in H. simpl in H.
    rewrite (shape_kwargs_other _ _ _ _ _ "model" H) by (unfold transformed; set_solver).
    rewrite model_dump_lookup, decide_False by (unfold completion_exclude; set_solver).
    by apply normalized_other.
Qed.

End HandlersMore.

(** The sample request with [min_tokens = 5] and a grammar. *)
Definition sample_body_min : gmap string pyval :=
  <["grammar" := VStr "root ::= [a-z]+"]> (<["min_tokens" := VInt 5]> sample_body).

Definition sample_invocation_min : invocation :=
  match create_completion sample_from_string copilot_path (Some sample_proxy)
          sample_body_min with
  | Ok inv => inv
  | Raise _ => {| engine := sample_llama; kwargs := ∅ |}
  end.

Lemma sample_min_accepted :
  create_completion sample_from_string copilot_path (Some sample_proxy) sample_body_min
  = Ok sample_invocation_min.
Proof. vm_compute. reflexivity. Qed.

Lemma min_tokens_processor_installed_witness :
  kwargs sample_invocation_min !! "logits_processor" = Some (VList [VMinTokens 5 2]).
Proof.
  exact (min_tokens_processor_installed sample_from_string (Completion copilot_path)
           (Some sample_proxy) sample_body_min sample_invocation_min 5
           sample_min_accepted eq_refl).
Defined.

Lemma grammar_compiled_before_engine_witness :
  ∃ c, sample_from_string "root ::= [a-z]+" = Ok c
       ∧ kwargs sample_invocation_min !! "grammar" = Some c.
Proof.
  exact (grammar_compiled_before_engine sample_from_string (Completion copilot_path)
           (Some sample_proxy) sample_body_min sample_invocation_min
           (VStr "root ::= [a-z]+") sample_min_accepted eq_refl).
Defined.

Lemma completion_engine_selection_witness :
  engine sample_invocation_min = proxy_call sample_proxy (VStr "copilot-codex")
  ∧ kwargs sample_invocation_min !! "model" = Some VNone.
Proof.
  destruct (completion_engine_selection sample_from_string copilot_path sample_proxy
              sample_body_min sample_invocation_min sample_min_accepted)
    as (H1 & _ & H2).
  split; [exact (H1 eq_refl) | exact H2].
Defined.

(** A tokenizer under which two keys share a token id. *)
Lemma uncontested_id_gets_its_keys_score_witness :
  dict_get "98"
    (_logit_bias_tokens_to_input_ids sample_llama
       [("a", one_and_a_half); ("ab", two)]) = Some two.
Proof.
  apply (uncontested_id_gets_its_keys_score sample_llama
           [("a", one_and_a_half); ("ab", two)] "98" "ab" two).
  - right. left.
  - vm_compute. right. left.
  - intros t s Hin Hk. apply elem_of_cons in Hin as [[= -> ->]|Hin].
    + exfalso. vm_compute in Hk. apply list_elem_of_singleton in Hk. discriminate.
    + apply list_elem_of_singleton in Hin as [= -> ->]. reflexivity.
Defined.

Lemma logit_bias_order_matters_only_on_conflict_witness :
  dict_get "98"
    (_logit_bias_tokens_to_input_ids sample_llama [("a", one_and_a_half); ("ab", two)])
  = dict_get "98"
      (_logit_bias_tokens_to_input_ids sample_llama [("ab", two); ("a", one_and_a_half)]).
Proof.
  apply (logit_bias_order_matters_only_on_conflict sample_llama).
  - apply Permutation_swap.
  - intros t1 s1 t2 s2 Hin1 Hin2 H1 H2.
    apply elem_of_cons in Hin1 as [[= -> ->]|Hin1].
    { exfalso. vm_compute in H1. apply list_elem_of_singleton in H1. discriminate. }
    apply elem_of_cons in Hin2 as [[= -> ->]|Hin2].
    { exfalso. vm_compute in H2. apply list_elem_of_singleton in H2. discriminate. }
    apply list_elem_of_singleton in Hin1 as [= -> ->].
    apply list_elem_of_singleton in Hin2 as [= -> ->]. reflexivity.
Defined.

End ShapingMore.

(* ===================================================================== *)
(** * Properties of the embedding handler *)
(* ===================================================================== *)

Module EmbeddingFacts.
Import Py Shaping Registry Embedding.

#[local] Set Warnings "-clear-no-such-hyp".

Section Facts.
Variable n_ctx : ModelSettings → Z.
Variable load : string → option string → SentenceTransformer.

(** The cache and the record of constructor calls tell the same story, and
    only embedding models flagged as HF models of the configuration were
    ever constructed. *)
Definition consistent (_model_settings : list ModelSettings) (c : cache) : Prop :=
  NoDup (constructed c).*1
  ∧ (∀ k, k ∈ (constructed c).*1 ↔ is_Some (hf_embedding_model c !! k))
  ∧ (∀ k device, (k, device) ∈ constructed c →
                 hf_embedding_model c !! k = Some (load k device))
  ∧ (∀ k, k ∈ (constructed c).*1 →
          ∃ setting, setting ∈ _model_settings ∧ model setting = k
                     ∧ embedding setting = true
                     ∧ is_hf_embedding_model setting = true).

Lemma select_setting_elem request_model settings setting :
  select_setting request_model settings = Some setting →
  setting ∈ settings ∧ embedding setting = true.
Proof.
  induction settings as [|m settings IH]; [done|]. cbn [select_setting].
  destruct (bool_decide (request_model = None) && embedding m) eqn:H1.
  { intros [= <-]. apply andb_true_iff in H1 as [_ ?]. split; [by left | done]. }
  destruct (embedding m && _) eqn:H2.
  { intros [= <-]. apply andb_true_iff in H2 as [? _]. split; [by left | done]. }
  intros [? ?]%IH. split; [by right | done].
Qed.

Lemma hf_model_consistent settings setting c :
  setting ∈ settings → embedding setting = true →
  is_hf_embedding_model setting = true →
  consistent settings c → consistent settings (hf_model n_ctx load setting c).1.
Proof.
  intros Hin He Hhf (Hnd & Hdom & Hval & Hcfg). unfold hf_model.
  destruct (hf_embedding_model c !! model setting) as [m|] eqn:Hc; [done|].
  unfold consistent. cbn [fst hf_embedding_model constructed].
  assert (model setting ∉ (constructed c).*1) as Hfresh.
  { intros Hk%Hdom. rewrite Hc in Hk. by destruct Hk. }
  split_and!.
  - rewrite fmap_app. apply NoDup_app. split_and!; [done | | apply NoDup_singleton].
    intros x Hx ->%list_elem_of_singleton. done.
  - intros k. rewrite fmap_app, elem_of_app, lookup_insert_is_Some, <- Hdom.
    cbn [fmap list_fmap fst]. rewrite list_elem_of_singleton.
    destruct (decide (model setting = k)); naive_solver.
  - intros k device [Hk|Hk]%elem_of_app.
    + rewrite lookup_insert_ne; [by apply Hval|].
      intros <-. apply Hfresh. apply list_elem_of_fmap. by exists (model setting, device).
    + apply list_elem_of_singleton in Hk as [= -> ->]. by rewrite lookup_insert_eq.
  - intros k. rewrite fmap_app, elem_of_app. cbn [fmap list_fmap fst].
    rewrite list_elem_of_singleton. intros [Hk| ->]; [by apply Hcfg|].
    by exists setting.
Qed.

Lemma create_embedding_consistent settings request llama_proxy c :
  consistent settings c →
  consistent settings (create_embedding n_ctx load settings request llama_proxy c).1.
Proof.
  intros Hc. unfold create_embedding.
  destruct (select_setting _ settings) as [setting|] eqn:Hsel; [|done].
  destruct (select_setting_elem _ _ _ Hsel) as [Hin He].
  destruct (is_hf_embedding_model setting) eqn:Hhf.
  - pose proof (hf_model_consistent settings setting c Hin He Hhf Hc) as H.
    by destruct (hf_model n_ctx load setting c).
  - by destruct llama_proxy.
Qed.

Lemma serve_all_consistent settings requests llama_proxy c :
  consistent settings c →
  consistent settings (serve_all n_ctx load settings requests llama_proxy c).
Proof.
  revert c. induction requests as [|r requests IH]; intros c Hc; [done|].
  cbn [serve_all]. by apply IH, create_embedding_consistent.
Qed.

(** X17.  Whatever embedding requests are served, one after the other,
    starting with an empty cache: no HF model is constructed twice; the
    cache holds exactly the models that were constructed, each as the
    constructor returned it (with the device chosen at its first use); and
    only models of entries flagged both embedding-capable and HF were
    constructed. *)
Theorem hf_model_constructed_once (_model_settings : list ModelSettings)
    (requests : list CreateEmbeddingRequest) (llama_proxy : option LlamaProxy) :
  let c := serve_all n_ctx load _model_settings requests llama_proxy empty_cache in
  NoDup (constructed c).*1
  ∧ (∀ k, k ∈ (constructed c).*1 ↔ is_Some (hf_embedding_model c !! k))
  ∧ (∀ k device, (k, device) ∈ constructed c →
                 hf_embedding_model c !! k = Some (load k device))
  ∧ (∀ k, k ∈ (constructed c).*1 →
          ∃ setting, setting ∈ _model_settings ∧ model setting = k
                     ∧ embedding setting = true
                     ∧ is_hf_embedding_model setting = true).
Proof.
  apply serve_all_consistent. unfold consistent, empty_cache. simpl.
  split_and!.
  - constructor.
  - intros k. rewrite lookup_empty. split; [by intros ?%elem_of_nil | by intros []].
  - by intros k device ?%elem_of_nil.
  - by intros k ?%elem_of_nil.
Qed.

Lemma hf_model_keeps setting c k m :
  hf_embedding_model c !! k = Some m →
  hf_embedding_model (hf_model n_ctx load setting c).1 !! k = Some m.
Proof.
  intros Hk. unfold hf_model.
  destruct (hf_embedding_model c !! model setting) as [m'|] eqn:Hc; [done|].
  cbn [fst hf_embedding_model]. rewrite lookup_insert_ne; [done|]. congruence.
Qed.

(** X18.  A cached model is never evicted, replaced or constructed again: a
    request leaves every cache entry as it is, and a request served by an
    entry whose model is cached makes no constructor call. *)
Theorem cached_model_is_reused (_model_settings : list ModelSettings)
    (request : CreateEmbeddingRequest) (llama_proxy : option LlamaProxy)
    (c : cache) (k : string) (m : SentenceTransformer) :
  hf_embedding_model c !! k = Some m →
  hf_embedding_model
    (create_embedding n_ctx load _model_settings request llama_proxy c).1 !! k = Some m
  ∧ (∀ setting, select_setting (request_model request) _model_settings = Some setting →
                model setting = k →
                (create_embedding n_ctx load _model_settings request llama_proxy c).1 = c).
Proof.
  intros Hk. unfold create_embedding. split.
  - destruct (select_setting _ _) as [setting|]; [|done].
    destruct (is_hf_embedding_model setting).
    + pose proof (hf_model_keeps setting c k m Hk) as H.
      by destruct (hf_model n_ctx load setting c).
    + by destruct llama_proxy.
  - intros setting -> <-. destruct (is_hf_embedding_model setting).
    + unfold hf_model. by rewrite Hk.
    + by destruct llama_proxy.
Qed.

(** X19.  For an entry served by an HF model, a single input and the
    one-element list of that input give the same response and the same
    cache. *)
Theorem single_input_is_a_singleton_list (_model_settings : list ModelSettings)
    (request_model : option string) (input : pyval) (rest : gmap string pyval)
    (llama_proxy : option LlamaProxy) (c : cache) (setting : ModelSettings) :
  select_setting request_model _model_settings = Some setting →
  is_hf_embedding_model setting = true →
  (∀ l, input ≠ VList l) →
  create_embedding n_ctx load _model_settings
    (mkEmbeddingRequest request_model input rest) llama_proxy c
  = create_embedding n_ctx load _model_settings
      (mkEmbeddingRequest request_model (VList [input]) rest) llama_proxy c.
Proof.
  intros Hsel Hhf Hnl. unfold create_embedding. cbn [Embedding.request_model request_input].
  rewrite Hsel, Hhf. destruct (hf_model n_ctx load setting c) as [c' m].
  unfold hf_response.
  assert (as_list input = as_list (VList [input])) as ->; [|done].
  destruct input; try done. by destruct (Hnl l).
Qed.

(** X20.  The response of an entry served by an HF model: the model in use
    is the cached one; the data list has one item per row the model's
    [encode] returns, in order, item [i] carrying row [i] and the index
    [i]; the model is named by the entry's alias if it has one, else by its
    model name; and both token counts are the one number the model's
    tokenizer gives. *)
Theorem hf_response_shape (_model_settings : list ModelSettings)
    (request : CreateEmbeddingRequest) (llama_proxy : option LlamaProxy)
    (c : cache) (setting : ModelSettings) :
  select_setting (request_model request) _model_settings = Some setting →
  is_hf_embedding_model setting = true →
  ∃ c' m data,
    create_embedding n_ctx load _model_settings request llama_proxy c
    = (c', Ok (Response
                 (VDict [ ("object", VStr "list");
                          ("data", VList data);
                          ("model", VStr (default (model setting) (model_alias setting)));
                          ("usage",
                           VDict [ ("prompt_tokens",
                                    VInt (attention_mask_sum m
                                            (as_list (request_input request))));
                                   ("total_tokens",
                                    VInt (attention_mask_sum m
                                            (as_list (request_input request)))) ]) ])))
    ∧ hf_embedding_model c' !! model setting = Some m
    ∧ length data = length (encode m (as_list (request_input request)))
    ∧ ∀ i emb, encode m (as_list (request_input request)) !! i = Some emb →
               data !! i = Some (VDict [ ("object", VStr "embedding");
                                         ("embedding", VList emb);
                                         ("index", VInt (Z.of_nat i)) ]).
Proof.
  intros Hsel Hhf. unfold create_embedding. rewrite Hsel, Hhf.
  destruct (hf_model n_ctx load setting c) as [c' m] eqn:Hm.
  exists c', m. eexists. split_and!.
  - unfold hf_response. by destruct (model_alias setting).
  - unfold hf_model in Hm.
    destruct (hf_embedding_model c !! model setting) as [m'|] eqn:Hc; simplify_eq/=.
    + done.
    + by rewrite lookup_insert_eq.
  - by rewrite length_imap.
  - intros i emb Hi. by rewrite list_lookup_imap, Hi.
Qed.

(** X21.  An entry that is not an HF model is served by the engine the proxy
    gives for the request's own [model] (not for the entry that was
    resolved): the call gets every field of the request but [user], the
    input as the request has it, and the cache is not touched. *)
Theorem native_embedding_call (_model_settings : list ModelSettings)
    (request : CreateEmbeddingRequest) (proxy : LlamaProxy)
    (c : cache) (setting : ModelSettings) :
  select_setting (request_model request) _model_settings = Some setting →
  is_hf_embedding_model setting = false →
  ∃ kw,
    create_embedding n_ctx load _model_settings request (Some proxy) c
    = (c, Ok (EngineEmbedding (proxy_call proxy (opt_str (request_model request))) kw))
    ∧ kw !! "user" = None
    ∧ kw !! "input" = Some (request_input request)
    ∧ kw !! "model" = Some (opt_str (request_model request))
    ∧ ∀ k, k ≠ "user" → kw !! k = request_fields request !! k.
Proof.
  intros Hsel Hhf. unfold create_embedding. rewrite Hsel, Hhf.
  eexists. split; [reflexivity|].
  assert (∀ k, model_dump {["user"]} (request_fields request) !! k
               = if decide (k = "user") then None else request_fields request !! k)
    as Hl.
  { intros k. rewrite ShapingFacts.model_dump_lookup.
    destruct (decide (k = "user")) as [->|Hne].
    - rewrite decide_True; [done | set_solver].
    - rewrite decide_False; [done | set_solver]. }
  split_and!.
  - by rewrite Hl.
  - rewrite Hl. unfold request_fields. simpl.
    rewrite lookup_insert_ne by done. by rewrite lookup_insert_eq.
  - rewrite Hl. unfold request_fields. simpl. by rewrite lookup_insert_eq.
  - intros k Hk. rewrite Hl. by rewrite decide_False.
Qed.

End Facts.

(** A sample configuration: an HF embedding model and a native one. *)
Definition hf_entry : ModelSettings :=
  {| model := "BAAI/bge-m3"; model_alias := Some "bge";
     embedding := true; is_hf_embedding_model := true |}.

Definition native_entry : ModelSettings :=
  {| model := "models/e5.gguf"; model_alias := None;
     embedding := true; is_hf_embedding_model := false |}.

Definition sample_n_ctx (setting : ModelSettings) : Z := 4096.

Definition sample_load (name : string) (device : option string) : SentenceTransformer :=
  {| encode := λ inputs, (λ _, [VFloat 0]) <$> inputs;
     attention_mask_sum := λ inputs, Z.of_nat (length inputs) |}.

Definition sample_engine : Llama :=
  {| model_path := "models/e5.gguf"; lora_path := None;
     tokenize := λ _ _ _, []; token_eos := 2 |}.

Definition sample_proxy : LlamaProxy :=
  {| _current_model := Some sample_engine; proxy_call := λ _, sample_engine |}.

Definition hf_request : CreateEmbeddingRequest :=
  {| request_model := Some "bge"; request_input := VStr "Hello world!";
     request_rest := {[ "user" := VNone ]} |}.

Definition native_request : CreateEmbeddingRequest :=
  {| request_model := Some "models/e5.gguf"; request_input := VStr "Hello world!";
     request_rest := {[ "user" := VStr "me" ]} |}.

Definition warm_cache : cache :=
  {| hf_embedding_model := {[ "BAAI/bge-m3" := sample_load "BAAI/bge-m3" (Some "cpu") ]};
     constructed := [("BAAI/bge-m3", Some "cpu")] |}.

Lemma cached_model_is_reused_witness :
  (create_embedding sample_n_ctx sample_load [hf_entry; native_entry] hf_request
     (Some sample_proxy) warm_cache).1 = warm_cache.
Proof.
  destruct (cached_model_is_reused sample_n_ctx sample_load [hf_entry; native_entry]
              hf_request (Some sample_proxy) warm_cache "BAAI/bge-m3"
              (sample_load "BAAI/bge-m3" (Some "cpu")) eq_refl) as [_ H].
  exact (H hf_entry eq_refl eq_refl).
Defined.

Lemma single_input_is_a_singleton_list_witness :
  create_embedding sample_n_ctx sample_load [hf_entry; native_entry]
    (mkEmbeddingRequest (Some "bge") (VStr "Hello world!") ∅) None empty_cache
  = create_embedding sample_n_ctx sample_load [hf_entry; native_entry]
      (mkEmbeddingRequest (Some "bge") (VList [VStr "Hello world!"]) ∅) None empty_cache.
Proof.
  apply (single_input_is_a_singleton_list sample_n_ctx sample_load
           [hf_entry; native_entry] (Some "bge") (VStr "Hello world!") ∅ None
           empty_cache hf_entry eq_refl eq_refl).
  intros l. discriminate.
Defined.

Lemma hf_response_shape_witness :
  ∃ c' m (data : list pyval),
    (create_embedding sample_n_ctx sample_load [hf_entry; native_entry] hf_request
       None empty_cache).1 = c'
    ∧ hf_embedding_model c' !! "BAAI/bge-m3" = Some m
    ∧ length data = length (encode m [VStr "Hello world!"]).
Proof.
  destruct (hf_response_shape sample_n_ctx sample_load [hf_entry; native_entry]
              hf_request None empty_cache hf_entry eq_refl eq_refl)
    as (c' & m & data & H1 & H2 & H3 & _).
  exists c', m, data. split_and!; [by rewrite H1 | exact H2 | exact H3].
Defined.

Lemma native_embedding_call_witness :
  ∃ kw,
    create_embedding sample_n_ctx sample_load [hf_entry; native_entry] native_request
      (Some sample_proxy) empty_cache
    = (empty_cache, Ok (EngineEmbedding sample_engine kw))
    ∧ kw !! "user" = None.
Proof.
  destruct (native_embedding_call sample_n_ctx sample_load [hf_entry; native_entry]
              native_request sample_proxy empty_cache native_entry eq_refl eq_refl)
    as (kw & H1 & H2 & _).
  exists kw. split; [exact H1 | exact H2].
Defined.

End EmbeddingFacts.

(* ===================================================================== *)
(** * Properties of [create_app] *)
(* ===================================================================== *)

Module AppFacts.
Import Py App.

Section Facts.
Context {Settings ConfigFileSettings : Type}.
Variable Settings_new : result Settings.
Variable server_of : Settings → ServerSettings.
Variable model_of : Settings → ModelSettings.
Variable server_of_config : ConfigFileSettings → ServerSettings.
Variable models_of_config : ConfigFileSettings → list ModelSettings.
Variable validate_json : list Byte.byte → result ConfigFileSettings.
Variable yaml_to_json : list Byte.byte → result (list Byte.byte).
Variable LlamaProxy_new : list ModelSettings → result LlamaProxy.
Variable disable_ping_events : ServerSettings → bool.

Local Notation "'create_app'" :=
  (App.create_app Settings_new server_of model_of server_of_config models_of_config
     validate_json yaml_to_json LlamaProxy_new disable_ping_events).

Local Notation "'read_config'" :=
  (App.read_config server_of_config models_of_config validate_json yaml_to_json).

(** X22.  With [CONFIG_FILE] set, the arguments of [create_app] play no
    role: any two calls in the same world give the same result; and when
    the file does not exist the call raises the [ValueError] that names the
    file and assigns no module variable. *)
Theorem config_file_overrides_arguments (w : world) (config_file : string)
    (settings settings' : option Settings)
    (server_settings server_settings' : option ServerSettings)
    (model_settings model_settings' : option (list ModelSettings)) (g : globals) :
  CONFIG_FILE w = Some config_file →
  create_app w settings server_settings model_settings g
  = create_app w settings' server_settings' model_settings' g
  ∧ (files w !! config_file = None →
     create_app w settings server_settings model_settings g
     = (g, Raise (ValueError ("Config file " +:+ config_file +:+ " not found!")))).
Proof.
  intros Hc. unfold App.create_app. rewrite Hc. split.
  - by destruct (read_config w config_file) as [[ss ms]|e].
  - intros Hf. unfold App.read_config. by rewrite Hf.
Qed.

(** X23.  Without [CONFIG_FILE], server settings and model settings must
    come together: with exactly one of them given, [create_app] fails its
    assertion and assigns no module variable. *)
Theorem settings_must_come_together (w : world) (settings : option Settings)
    (server_settings : option ServerSettings)
    (model_settings : option (list ModelSettings)) (g : globals) :
  CONFIG_FILE w = None →
  (server_settings = None ∧ model_settings ≠ None)
  ∨ (server_settings ≠ None ∧ model_settings = None) →
  create_app w settings server_settings model_settings g = (g, Raise AssertionError).
Proof.
  intros Hc H. unfold App.create_app. rewrite Hc.
  destruct server_settings, model_settings; simpl; try done;
    by destruct H as [[? ?]|[? ?]].
Qed.

Lemma create_app_result w settings server_settings model_settings g g' r :
  create_app w settings server_settings model_settings g = (g', r) →
  (g' = g ∧ raised r = true)
  ∨ ∃ ss ms,
      (match CONFIG_FILE w with
       | Some config_file => read_config w config_file = Ok (ss, ms)
       | None =>
           (server_settings = Some ss ∧ model_settings = Some ms)
           ∨ (server_settings = None ∧ model_settings = None
              ∧ ∃ s, match settings with Some s' => Ok s' | None => Settings_new end
                     = Ok s
                     ∧ ss = server_of s ∧ ms = [model_of s])
       end)
      ∧ match LlamaProxy_new ms with
        | Ok proxy =>
            r = Ok tt
            ∧ g' = (if disable_ping_events ss
                    then set_ping_message_factory EmptyBytes
                    else id)
                     {| _server_settings := Some ss; _model_settings := Some ms;
                        _llama_proxy := Some proxy;
                        _ping_message_factory := _ping_message_factory g |}
        | Raise e =>
            r = Raise e
            ∧ g' = set_model_settings ms (set_server_settings ss g)
        end.
Proof.
  unfold App.create_app.
  assert (∀ ss ms,
    match set_llama_proxy LlamaProxy_new ms
            (set_model_settings ms (set_server_settings ss g)) with
    | (g0, Ok _) =>
        if disable_ping_events ss
        then (set_ping_message_factory EmptyBytes g0, Ok tt)
        else (g0, Ok tt)
    | (g0, Raise e) => (g0, Raise e)
    end = (g', r) →
    match LlamaProxy_new ms with
    | Ok proxy =>
        r = Ok tt
        ∧ g' = (if disable_ping_events ss
                then set_ping_message_factory EmptyBytes
                else id)
                 {| _server_settings := Some ss; _model_settings := Some ms;
                    _llama_proxy := Some proxy;
                    _ping_message_factory := _ping_message_factory g |}
    | Raise e => r = Raise e ∧ g' = set_model_settings ms (set_server_settings ss g)
    end) as Hfin.
  { intros ss ms. unfold set_llama_proxy.
    destruct (LlamaProxy_new ms) as [proxy|e]; simpl.
    - destruct (disable_ping_events ss); by intros [= <- <-].
    - by intros [= <- <-]. }
  destruct (CONFIG_FILE w) as [config_file|].
  - destruct (read_config w config_file) as [[ss ms]|e]; simpl.
    + intros H. right. exists ss, ms. split; [done|]. by apply Hfin.
    + intros [= <- <-]. by left.
  - simpl. destruct server_settings as [ss|], model_settings as [ms|]; simpl.
    + intros H. right. exists ss, ms. split; [by left|]. by apply Hfin.
    + intros [= <- <-]. by left.
    + intros [= <- <-]. by left.
    + destruct (match settings with Some s' => Ok s' | None => Settings_new end)
        as [s|e] eqn:Hs; simpl.
      * intros H. right. exists (server_of s), [model_of s].
        split; [|by apply Hfin]. right. split_and!; try done. by exists s.
      * intros [= <- <-]. by left.
Qed.

(** X24.  When [create_app] succeeds, the module variables agree with each
    other: the proxy was built from exactly the model list stored in
    [_model_settings], the server settings are stored, and the ping message
    factory is the empty-bytes factory if [disable_ping_events] is set and
    otherwise what it was. *)
Theorem create_app_stores_what_the_proxy_was_built_from (w : world)
    (settings : option Settings) (server_settings : option ServerSettings)
    (model_settings : option (list ModelSettings)) (g g' : globals) :
  create_app w settings server_settings model_settings g = (g', Ok tt) →
  ∃ ss ms proxy,
    _server_settings g' = Some ss
    ∧ _model_settings g' = Some ms
    ∧ LlamaProxy_new ms = Ok proxy
    ∧ _llama_proxy g' = Some proxy
    ∧ _ping_message_factory g'
      = if disable_ping_events ss then Some EmptyBytes else _ping_message_factory g.
Proof.
  intros [[_ Hr]|(ss & ms & _ & H)]%create_app_result; [by simpl in Hr|].
  destruct (LlamaProxy_new ms) as [proxy|e] eqn:Hp; [|by destruct H].
  destruct H as [_ ->]. exists ss, ms, proxy.
  by destruct (disable_ping_events ss).
Qed.

(** X25.  When [create_app] raises, it has either assigned nothing, or the
    proxy could not be built and only the two settings variables were
    assigned: the proxy and the ping message factory are what they were. *)
Theorem create_app_failure_leaves_the_proxy (w : world)
    (settings : option Settings) (server_settings : option ServerSettings)
    (model_settings : option (list ModelSettings)) (g g' : globals) (e : error) :
  create_app w settings server_settings model_settings g = (g', Raise e) →
  _llama_proxy g' = _llama_proxy g
  ∧ _ping_message_factory g' = _ping_message_factory g
  ∧ (g' = g
     ∨ ∃ ss ms, LlamaProxy_new ms = Raise e
                ∧ g' = set_model_settings ms (set_server_settings ss g)).
Proof.
  intros [[-> _]|(ss & ms & _ & H)]%create_app_result.
  - split_and!; [done | done | by left].
  - destruct (LlamaProxy_new ms) as [proxy|e'] eqn:Hp; [by destruct H|].
    destruct H as [[= <-] ->]. split_and!; [done | done |]. right. by exists ss, ms.
Qed.

(** X26.  Started with no argument and no [CONFIG_FILE], or with only
    [settings], a successful [create_app] configures exactly one model: the
    one derived from [settings], or from [Settings()] when none is given,
    and the server settings derived from the same. *)
Theorem default_app_has_one_model (w : world) (settings : option Settings)
    (g g' : globals) :
  CONFIG_FILE w = None →
  create_app w settings None None g = (g', Ok tt) →
  ∃ s, match settings with Some s' => Ok s' | None => Settings_new end = Ok s
       ∧ _model_settings g' = Some [model_of s]
       ∧ _server_settings g' = Some (server_of s).
Proof.
  intros Hc [[_ Hr]|(ss & ms & Hch & H)]%create_app_result; [by simpl in Hr|].
  rewrite Hc in Hch. destruct Hch as [[[=] _]|(_ & _ & s & Hs & -> & ->)].
  exists s. split; [done|].
  destruct (LlamaProxy_new [model_of s]) as [proxy|e]; [|by destruct H].
  destruct H as [_ ->]. by destruct (disable_ping_events (server_of s)).
Qed.

End Facts.

(** A sample instance: settings are a model path, a configuration file is a
    list of models, and the proxy refuses an empty list. *)
Definition sample_server : ServerSettings :=
  {| api_key := None; interrupt_requests := true |}.

Definition sample_model (path : string) : ModelSettings :=
  {| model := path; model_alias := None; embedding := false;
     is_hf_embedding_model := false |}.

Definition sample_engine : Llama :=
  {| model_path := "default.gguf"; lora_path := None;
     tokenize := λ _ _ _, []; token_eos := 2 |}.

Definition sample_proxy_new (models : list ModelSettings) : result LlamaProxy :=
  match models with
  | [] => Raise AssertionError
  | _ :: _ => Ok {| _current_model := Some sample_engine;
                    proxy_call := λ _, sample_engine |}
  end.

Definition sample_create_app :=
  App.create_app (Settings:=string) (ConfigFileSettings:=list ModelSettings)
    (Ok "default.gguf") (λ _, sample_server) sample_model
    (λ _, sample_server) id (λ _, Ok [sample_model "from-config.gguf"])
    (λ bytes, Ok bytes) sample_proxy_new (λ _, true).

Definition no_config : world := {| CONFIG_FILE := None; files := ∅ |}.

Definition missing_config : world :=
  {| CONFIG_FILE := Some "config.yaml"; files := ∅ |}.

Definition unset : globals :=
  {| _server_settings := None; _model_settings := None; _llama_proxy := None;
     _ping_message_factory := None |}.

Lemma config_file_overrides_arguments_witness :
  sample_create_app missing_config (Some "m.gguf") None None unset
  = (unset, Raise (ValueError "Config file config.yaml not found!")).
Proof.
  destruct (config_file_overrides_arguments (Ok "default.gguf") (λ _, sample_server)
              sample_model (λ _, sample_server) id
              (λ _, Ok [sample_model "from-config.gguf"]) (λ bytes, Ok bytes)
              sample_proxy_new (λ _, true)
              missing_config "config.yaml" (Some "m.gguf") None None None None None
              unset eq_refl) as [_ H].
  exact (H eq_refl).
Defined.

Lemma settings_must_come_together_witness :
  sample_create_app no_config None (Some sample_server) None unset
  = (unset, Raise AssertionError).
Proof.
  apply (settings_must_come_together (Ok "default.gguf") (λ _, sample_server)
           sample_model (λ _, sample_server) id
           (λ _, Ok [sample_model "from-config.gguf"]) (λ bytes, Ok bytes)
           sample_proxy_new (λ _, true)
           no_config None (Some sample_server) None unset eq_refl).
  right. split; [discriminate | reflexivity].
Defined.

Lemma create_app_stores_what_the_proxy_was_built_from_witness :
  ∃ ss ms proxy,
    _server_settings (sample_create_app no_config (Some "m.gguf") None None unset).1
    = Some ss
    ∧ _model_settings (sample_create_app no_config (Some "m.gguf") None None unset).1
      = Some ms
    ∧ sample_proxy_new ms = Ok proxy.
Proof.
  destruct (create_app_stores_what_the_proxy_was_built_from
              (Ok "default.gguf") (λ _, sample_server)
              sample_model (λ _, sample_server) id
              (λ _, Ok [sample_model "from-config.gguf"]) (λ bytes, Ok bytes)
              sample_proxy_new (λ _, true)
              no_config (Some "m.gguf") None None unset
              (sample_create_app no_config (Some "m.gguf") None None unset).1
              eq_refl) as (ss & ms & proxy & H1 & H2 & H3 & _).
  exists ss, ms, proxy. split_and!; [exact H1 | exact H2 | exact H3].
Defined.

Lemma create_app_failure_leaves_the_proxy_witness :
  _llama_proxy
    (sample_create_app no_config None (Some sample_server) (Some []) unset).1 = None
  ∧ _model_settings
      (sample_create_app no_config None (Some sample_server) (Some []) unset).1
    = Some [].
Proof.
  destruct (create_app_failure_leaves_the_proxy
              (Ok "default.gguf") (λ _, sample_server)
              sample_model (λ _, sample_server) id
              (λ _, Ok [sample_model "from-config.gguf"]) (λ bytes, Ok bytes)
              sample_proxy_new (λ _, true)
              no_config None (Some sample_server) (Some []) unset
              (sample_create_app no_config None (Some sample_server) (Some []) unset).1
              AssertionError eq_refl) as (H1 & _ & _).
  split; [exact H1 | reflexivity].
Defined.

Lemma default_app_has_one_model_witness :
  _model_settings (sample_create_app no_config None None None unset).1
  = Some [sample_model "default.gguf"].
Proof.
  destruct (default_app_has_one_model (Ok "default.gguf") (λ _, sample_server)
              sample_model (λ _, sample_server) id
              (λ _, Ok [sample_model "from-config.gguf"]) (λ bytes, Ok bytes)
              sample_proxy_new (λ _, true)
              no_config None unset
              (sample_create_app no_config None None None unset).1
              eq_refl eq_refl) as (s & Hs & Hm & _).
  injection Hs as <-. exact Hm.
Defined.

End AppFacts.
